(** * Closest-tag version resolver: a shallow embedding of [src/main.ts]

    The action computes a version string for the commit in [GITHUB_SHA]:
    it drains the tag listing ([getTags]), wraps the commit history in lazily
    expanded nodes ([getHistory], [LazyGitCommit]), searches the ancestry
    breadth first for the nearest tagged commit ([findClosestTag]) and
    formats the outcome ([run]).

    Conventions of the embedding.
    - The hosting service is a pair of total functions from a request to a
      response; a response is either the page of data or a thrown value.
    - [await] points are where the embedding may stop for lack of fuel
      ([Timeout]); every loop of the source takes a fuel argument.
    - JavaScript objects with identity ([LazyGitCommit] instances, the closure
      state of a provider) live in a store ([World]) and are named by their
      index, so that aliasing and the [visited] flag are those of the source.
    - The order in which the responses of concurrently issued requests arrive
      is the [network] component of the world: a list of choices, one per
      delivered response. *)

From Stdlib Require Import ZArith Lia Ascii String.
From stdpp Require Import base option list strings gmap pretty.

Open Scope string_scope.
Open Scope list_scope.
Open Scope nat_scope.

(** ** Thrown values and outcomes *)

(** What a JavaScript [throw] can carry: an instance of [Error], of which
    only [message] is observed, or any other value. *)
Inductive Thrown : Type :=
  | ErrorObj (message : string)
  | NonError (payload : string).

(** The result of an asynchronous computation run with a fuel bound. *)
Inductive outcome (A : Type) : Type :=
  | Ret (a : A)
  | Throw (e : Thrown)
  | Timeout.

Arguments Ret {A} a.
Arguments Throw {A} e.
Arguments Timeout {A}.

Global Instance outcome_ret : MRet outcome := λ A a, Ret a.

Global Instance outcome_bind : MBind outcome := λ A B k m,
  match m with
  | Ret a => k a
  | Throw e => Throw e
  | Timeout => Timeout
  end.

Global Instance outcome_fmap : FMap outcome := λ A B f m,
  match m with
  | Ret a => Ret (f a)
  | Throw e => Throw e
  | Timeout => Timeout
  end.

(** A response of the hosting service. *)
Inductive response (A : Type) : Type :=
  | Data (a : A)
  | Reject (e : Thrown).

Arguments Data {A} a.
Arguments Reject {A} e.

(** ** Data model *)

(** [const pageSize = 100] *)
Definition pageSize : nat := 100.

(** An element of the tag listing: [tag.name] and [tag.commit.sha]. *)
Record Tag : Type := { name : string; commit_sha : string }.

(** An element of the commit listing ([components['schemas']['commit']]):
    [commit.sha] and [commit.parents.map(it => it.sha)]. *)
Record Commit : Type := { c_sha : string; c_parents : list string }.

(** The two endpoints used: [octokit.rest.repos.listTags({per_page, page})]
    and [octokit.rest.repos.listCommits({sha, page, per_page})]. *)
Record Octokit : Type := {
  listTags : nat → response (list Tag);
  listCommits : string → nat → response (list Commit)
}.

(** ** [getTags] *)

(** [for (const tag of tags) result.set(tag.commit.sha, tag.name)] *)
Definition setTags (result : gmap string string) (tags : list Tag)
    : gmap string string :=
  foldl (λ m t, <[commit_sha t := name t]> m) result tags.

(** The [do ... while (fetchCount === pageSize)] loop; the final value of
    [page] is returned next to [result]: it counts the requests made. *)
Fixpoint getTags_loop (fuel : nat) (octokit : Octokit) (page : nat)
    (result : gmap string string) : outcome (gmap string string * nat) :=
  match fuel with
  | 0 => Timeout
  | S fuel' =>
    match listTags octokit page with
    | Reject e => Throw e
    | Data tags =>
      let fetchCount := length tags in
      let page := page + 1 in
      let result := setTags result tags in
      if decide (fetchCount = pageSize)
      then getTags_loop fuel' octokit page result
      else Ret (result, page)
    end
  end.

Definition getTags (fuel : nat) (octokit : Octokit)
    : outcome (gmap string string) :=
  fst <$> getTags_loop fuel octokit 0 ∅.

(** ** The commit provider of [getHistory] *)

(** The variables captured by the [provider] closure: [commits] and [page]. *)
Record ProviderState : Type := {
  commits : gmap string Commit;
  page : nat
}.

Global Instance ProviderState_inhabited : Inhabited ProviderState :=
  populate {| commits := ∅; page := 0 |}.

(** [for (const commit of rawCommits) commits.set(commit.sha, commit)] *)
Definition setCommits (m : gmap string Commit) (rawCommits : list Commit)
    : gmap string Commit :=
  foldl (λ m c, <[c_sha c := c]> m) m rawCommits.

Definition dquote : string := String (ascii_of_nat 34) EmptyString.

(** [JSON.stringify({ page, commits })]: a [Map] has no enumerable own
    property and is rendered as an empty object. *)
Definition stringify (ps : ProviderState) : string :=
  "{" +:+ dquote +:+ "page" +:+ dquote +:+ ":" +:+ pretty (page ps)
      +:+ "," +:+ dquote +:+ "commits" +:+ dquote +:+ ":{}}".

Definition undefined_message (hash : string) (ps : ProviderState) : string :=
  "commit " +:+ hash
    +:+ " was undefined, must not happen, all commits should be loaded. "
    +:+ stringify ps.

(** Lines 121-127: the lookup after the loop. *)
Definition provider_finish (hash : string) (ps : ProviderState)
    : outcome Commit :=
  match commits ps !! hash with
  | Some commit => Ret commit
  | None => Throw (ErrorObj (undefined_message hash ps))
  end.

(** Lines 113-116: what one response does to the closure state. *)
Definition provider_store (rawCommits : list Commit) (ps : ProviderState)
    : ProviderState :=
  {| page := page ps + 1; commits := setCommits (commits ps) rawCommits |}.

(** The [while (!commits.has(hash))] loop of one provider call that runs
    alone (as the call made by [getHistory] itself does). *)
Fixpoint provider_loop (fuel : nat) (octokit : Octokit) (hash : string)
    (ps : ProviderState) : outcome ProviderState :=
  if decide (is_Some (commits ps !! hash)) then Ret ps
  else
    match fuel with
    | 0 => Timeout
    | S fuel' =>
      match listCommits octokit hash (page ps) with
      | Reject e => Throw e
      | Data rawCommits =>
        let ps := provider_store rawCommits ps in
        if decide (length rawCommits < pageSize) then Ret ps
        else provider_loop fuel' octokit hash ps
      end
    end.

Definition provider (fuel : nat) (octokit : Octokit) (hash : string)
    (ps : ProviderState) : outcome (Commit * ProviderState) :=
  ps' ← provider_loop fuel octokit hash ps;
  commit ← provider_finish hash ps';
  Ret (commit, ps').

(** ** Provider calls that run concurrently

    [LazyGitCommit.parents] starts one provider call per parent and awaits
    them together ([Promise.all]).  An [async] function runs synchronously up
    to its first [await], so a call either finishes at once (cache hit) or
    stops at [await octokit.rest.repos.listCommits(...)] with the request
    already issued, its [page] argument evaluated.  A task records where a
    call stands. *)
Inductive Task : Type :=
  | Resolved (commit : Commit)
  | Pending (hash : string) (reqPage : nat).

(** A provider call from the loop test (line 106) up to its next [await]. *)
Definition provider_enter (hash : string) (ps : ProviderState)
    : outcome Task :=
  if decide (is_Some (commits ps !! hash))
  then Resolved <$> provider_finish hash ps
  else Ret (Pending hash (page ps)).

(** A suspended provider call receives the response to its request: lines
    113-119, then either the lookup after the loop or the loop test again. *)
Definition provider_resume (octokit : Octokit) (hash : string) (reqPage : nat)
    (ps : ProviderState) : outcome Task * ProviderState :=
  match listCommits octokit hash reqPage with
  | Reject e => (Throw e, ps)
  | Data rawCommits =>
    let ps := provider_store rawCommits ps in
    (if decide (length rawCommits < pageSize)
     then Resolved <$> provider_finish hash ps
     else provider_enter hash ps, ps)
  end.

(** The requests in flight, each with the index of its task. *)
Fixpoint pending_from (i : nat) (tasks : list Task)
    : list (nat * string * nat) :=
  match tasks with
  | [] => []
  | Resolved _ :: tasks => pending_from (S i) tasks
  | Pending hash reqPage :: tasks =>
    (i, hash, reqPage) :: pending_from (S i) tasks
  end.

(** The values of the settled tasks, in index order. *)
Definition resolved (tasks : list Task) : list Commit :=
  omap (λ t, match t with Resolved c => Some c | Pending _ _ => None end)
       tasks.

(** Which of [n] requests in flight is answered next; once the recorded
    arrivals are used up, the one of the task of least index is. *)
Definition nextArrival (network : list nat) (n : nat) : nat * list nat :=
  match network with
  | [] => (0, [])
  | k :: network => (k mod n, network)
  end.

(** [Promise.all] over the tasks: responses are delivered one at a time, in
    the order the network decides; the first rejection rejects the whole;
    when no request is left in flight the values are returned by index. *)
Fixpoint settle (fuel : nat) (octokit : Octokit) (tasks : list Task)
    (ps : ProviderState) (network : list nat)
    : outcome (list Commit * ProviderState * list nat) :=
  match pending_from 0 tasks with
  | [] => Ret (resolved tasks, ps, network)
  | (first :: _) as waiting =>
    match fuel with
    | 0 => Timeout
    | S fuel' =>
      let '(k, network) := nextArrival network (length waiting) in
      let '(i, hash, reqPage) := nth k waiting first in
      let '(t, ps) := provider_resume octokit hash reqPage ps in
      match t with
      | Ret t => settle fuel' octokit (<[i := t]> tasks) ps network
      | Throw e => Throw e
      | Timeout => Timeout
      end
    end
  end.

(** [Promise.all(hashes.map(async it => await commitProvider(it)))] *)
Definition promiseAll (fuel : nat) (octokit : Octokit) (hashes : list string)
    (ps : ProviderState) (network : list nat)
    : outcome (list Commit * ProviderState * list nat) :=
  tasks ← mapM (λ it, provider_enter it ps) hashes;
  settle fuel octokit tasks ps network.

(** ** [LazyGitCommit] and the store *)

(** An instance of [class LazyGitCommit]; [commitProvider] names the closure
    (the provider state) the instance was constructed with. *)
Record LazyGitCommit : Type := {
  commitProvider : nat;
  parentSha : list string;
  sha : string;
  visited : bool
}.

Global Instance LazyGitCommit_inhabited : Inhabited LazyGitCommit :=
  populate {| commitProvider := 0; parentSha := []; sha := EmptyString;
              visited := false |}.

(** [constructor(rawCommit, commitProvider)] *)
Definition newLazyGitCommit (rawCommit : Commit) (commitProvider : nat)
    : LazyGitCommit :=
  {| commitProvider := commitProvider;
     sha := c_sha rawCommit;
     parentSha := c_parents rawCommit;
     visited := false |}.

Definition setVisited (this : LazyGitCommit) (b : bool) : LazyGitCommit :=
  {| commitProvider := commitProvider this; parentSha := parentSha this;
     sha := sha this; visited := b |}.

(** The store: the allocated [LazyGitCommit] objects, the state of every
    provider closure, and the arrival order of the responses still to come.
    A reference is an index into [heap], resp. [providers]. *)
Record World : Type := {
  heap : list LazyGitCommit;
  providers : list ProviderState;
  network : list nat
}.

(** [async parents()]: every call allocates new instances. *)
Definition parents (fuel : nat) (octokit : Octokit) (this : nat) (w : World)
    : outcome (list nat * World) :=
  let self := heap w !!! this in
  let cp := commitProvider self in
  '(rawCommits, ps, net) ←
    promiseAll fuel octokit (parentSha self) (providers w !!! cp) (network w);
  Ret (seq (length (heap w)) (length rawCommits),
       {| heap := heap w ++ map (λ c, newLazyGitCommit c cp) rawCommits;
          providers := <[cp := ps]> (providers w);
          network := net |}).

(** ** [getHistory] *)

(** A new closure state ([commits = new Map()], [page = 0]), one provider
    call for [sha], and a node around the result. *)
Definition getHistory (fuel : nat) (octokit : Octokit) (sha : string)
    (w : World) : outcome (nat * World) :=
  let cp := length (providers w) in
  '(rawCommit, ps) ←
    provider fuel octokit sha {| commits := ∅; page := 0 |};
  Ret (length (heap w),
       {| heap := heap w ++ [newLazyGitCommit rawCommit cp];
          providers := providers w ++ [ps];
          network := network w |}).

(** ** [findClosestTag] *)

Record Closest : Type := { tag : string; distance : Z }.

Definition markVisited (this : nat) (w : World) : World :=
  {| heap := <[this := setVisited (heap w !!! this) true]> (heap w);
     providers := providers w;
     network := network w |}.

(** The [while (todo.length > 0)] loop; [None] is the [null] marker. *)
Fixpoint findClosestTag_loop (fuel : nat) (octokit : Octokit)
    (tags : gmap string string) (todo : list (option nat)) (depth : nat)
    (w : World) : outcome (Closest * World) :=
  match todo with
  | [] => Ret ({| tag := EmptyString; distance := -1 |}, w)
  | head :: todo =>
    match fuel with
    | 0 => Timeout
    | S fuel' =>
      match head with
      | None =>
        findClosestTag_loop fuel' octokit tags (todo ++ [None]) (depth + 1) w
      | Some head =>
        if visited (heap w !!! head)
        then findClosestTag_loop fuel' octokit tags todo depth w
        else
          match tags !! sha (heap w !!! head) with
          | Some candidateTag =>
            Ret ({| tag := candidateTag; distance := Z.of_nat depth |}, w)
          | None =>
            '(ps, w) ← parents fuel' octokit head (markVisited head w);
            findClosestTag_loop fuel' octokit tags (todo ++ map Some ps)
              depth w
          end
      end
    end
  end.

Definition findClosestTag (fuel : nat) (octokit : Octokit)
    (tags : gmap string string) (history : nat) (w : World)
    : outcome (Closest * World) :=
  findClosestTag_loop fuel octokit tags [Some history; None] 0 w.

(** ** [run] *)

(** [process.env.GITHUB_SHA] and [process.env.GITHUB_ENV]. *)
Record Env : Type := { GITHUB_SHA : string; GITHUB_ENV : string }.

(** What [run] does to the outside: [core.setOutput], [fs.appendFileSync]
    and [core.setFailed]. *)
Inductive Effect : Type :=
  | SetOutput (key value : string)
  | AppendFile (path data : string)
  | SetFailed (message : string).

(** Lines 17-19: the three awaited stages. *)
Definition resolve (fuel : nat) (octokit : Octokit) (env : Env) (w : World)
    : outcome (Closest * World) :=
  tags ← getTags fuel octokit;
  '(history, w) ← getHistory fuel octokit (GITHUB_SHA env) w;
  findClosestTag fuel octokit tags history w.

(** Lines 20-28. *)
Definition version (env : Env) (r : Closest) : string :=
  if decide (distance r < 0)%Z then GITHUB_SHA env
  else if decide (distance r = 0)%Z then tag r
  else tag r +:+ "-" +:+ pretty (distance r) +:+ "-" +:+ GITHUB_SHA env.

(** Lines 29-30 when both calls return. *)
Definition publish (env : Env) (version : string) : list Effect :=
  [SetOutput "version" version;
   AppendFile (GITHUB_ENV env) ("VERSION=" +:+ version)].

(** What the runner answers to the two calls of lines 29-30:
    [core.setOutput(name, value)] and [fs.appendFileSync(path, data)] return
    or throw (a file that cannot be opened, a disk that is full). *)
Record Host : Type := {
  setOutput : string → string → response unit;
  appendFileSync : string → string → response unit
}.

(** Lines 31-33: the [catch] block. *)
Definition handle (error : Thrown) : list Effect :=
  match error with
  | ErrorObj message => [SetFailed message]
  | NonError _ => []
  end.

(** Lines 29-33: the two calls inside the [try], in order; a call that
    throws has no effect of its own, skips what follows it and hands the
    thrown value to the [catch] block. *)
Definition output (host : Host) (env : Env) (version : string)
    : list Effect :=
  match setOutput host "version" version with
  | Reject error => handle error
  | Data _ =>
    SetOutput "version" version ::
    match appendFileSync host (GITHUB_ENV env) ("VERSION=" +:+ version) with
    | Reject error => handle error
    | Data _ => [AppendFile (GITHUB_ENV env) ("VERSION=" +:+ version)]
    end
  end.

(** The [try]/[catch] of [run]: the effects in the order they take place;
    [None] when the fuel does not suffice.  The client made by
    [github.getOctokit(core.getInput('token'))] is the given [octokit]. *)
Definition run (fuel : nat) (octokit : Octokit) (host : Host) (env : Env)
    (w : World) : option (list Effect) :=
  match resolve fuel octokit env w with
  | Ret (r, _) => Some (output host env (version env r))
  | Throw error => Some (handle error)
  | Timeout => None
  end.

(** ** A hosting service that pages finite listings

    The service side of the scenarios: a listing is cut into pages of
    [pageSize] items, numbered from zero; a page past the end is empty. *)
Definition page_of {A} (listing : list A) (p : nat) : list A :=
  take pageSize (drop (p * pageSize) listing).

Definition pagedService (allTags : list Tag)
    (history : string → list Commit) : Octokit :=
  {| listTags p := Data (page_of allTags p);
     listCommits sha p := Data (page_of (history sha) p) |}.

(** The history of [wanted] in a repository listed children first: the
    commits reachable from [wanted], in listing order. *)
Fixpoint ancestry (repo : list Commit) (wanted : list string)
    : list Commit :=
  match repo with
  | [] => []
  | c :: repo =>
    if bool_decide (c_sha c ∈ wanted)
    then c :: ancestry repo (c_parents c ++ wanted)
    else ancestry repo wanted
  end.

Definition hostedRepo (allTags : list Tag) (repo : list Commit) : Octokit :=
  pagedService allTags (λ sha, ancestry repo [sha]).

(** The world before anything is allocated. *)
Definition emptyWorld (network : list nat) : World :=
  {| heap := []; providers := []; network := network |}.

(** ** Scenarios *)

Definition mkCommit (sha : string) (parents : list string) : Commit :=
  {| c_sha := sha; c_parents := parents |}.

Definition mkTag (name sha : string) : Tag :=
  {| name := name; commit_sha := sha |}.

Definition ciEnv (sha : string) : Env :=
  {| GITHUB_SHA := sha; GITHUB_ENV := "/github/env" |}.

(** A repository with one root commit and no tag. *)
Definition rootOnly : list Commit := [mkCommit "C0" []].

(** C0 <- C1 <- C2. *)
Definition twoAhead : list Commit :=
  [mkCommit "C2" ["C1"]; mkCommit "C1" ["C0"]; mkCommit "C0" []].

(** The merge diamond: C1 and C2 are children of C0, C3 merges them. *)
Definition diamond (first second : string) : list Commit :=
  [mkCommit "C3" [first; second]; mkCommit "C2" ["C0"];
   mkCommit "C1" ["C0"]; mkCommit "C0" []].

(** The same diamond on top of a root commit R. *)
Definition diamondOnRoot : list Commit :=
  [mkCommit "C3" ["C1"; "C2"]; mkCommit "C2" ["C0"]; mkCommit "C1" ["C0"];
   mkCommit "C0" ["R"]; mkCommit "R" []].

(** A linear history c0 <- c1 <- ... <- cn, listed from cn down. *)
Fixpoint chain (n : nat) : list Commit :=
  match n with
  | 0 => [mkCommit "c0" []]
  | S k => mkCommit ("c" +:+ pretty (S k)) ["c" +:+ pretty k] :: chain k
  end.

(** How often an identifier went through lines 155-156 (marked visited,
    parents enqueued): the marked objects carrying it.  An object is marked
    at most once, the test of line 148 coming first. *)
Definition expansions (x : string) (w : World) : nat :=
  length (filter (λ n, visited n = true ∧ sha n = x) (heap w)).

(** ** The ancestry graph held by a commit cache *)

(** The parents the cache records for an identifier. *)
Definition parentsOf (m : gmap string Commit) (x : string) : list string :=
  match m !! x with
  | Some c => c_parents c
  | None => []
  end.

(** [path m x y n]: [y] is reached from [x] along [n] parent edges. *)
Inductive path (m : gmap string Commit) : string → string → nat → Prop :=
  | path_refl x : path m x x 0
  | path_edge x y z n :
      y ∈ parentsOf m x → path m y z n → path m x z (S n).

(** Every commit is stored under its own identifier, and the parents of a
    stored commit are stored: the cache holds a whole ancestry. *)
Definition keyed (m : gmap string Commit) : Prop :=
  map_Forall (λ x c, c_sha c = x) m.

Definition cache_closed (m : gmap string Commit) : Prop :=
  map_Forall (λ x c, c_sha c = x
                     ∧ Forall (λ p, is_Some (m !! p)) (c_parents c)) m.

(** The ends of all paths of length one more, in enqueue order. *)
Definition nextLevel (m : gmap string Commit) (xs : list string)
    : list string :=
  xs ≫= parentsOf m.

Fixpoint levelFrom (m : gmap string Commit) (xs : list string) (n : nat)
    : list string :=
  match n with
  | 0 => xs
  | S n => levelFrom m (nextLevel m xs) n
  end.

(** The object [parents()] builds for a cached identifier. *)
Definition nodeOf (m : gmap string Commit) (cp : nat) (x : string)
    : LazyGitCommit :=
  {| commitProvider := cp; parentSha := parentsOf m x; sha := x;
     visited := false |}.

(** The provider closure [cp] of the world holds the cache [m]. *)
Definition serves (m : gmap string Commit) (cp : nat) (w : World) : Prop :=
  ∃ ps, providers w !! cp = Some ps ∧ commits ps = m.

(** The world after the object [r], standing for [x], has been expanded. *)
Definition expanded (m : gmap string Commit) (cp : nat) (r : nat)
    (x : string) (w : World) : World :=
  {| heap := <[r := setVisited (nodeOf m cp x) true]> (heap w)
             ++ map (nodeOf m cp) (parentsOf m x);
     providers := providers w;
     network := network w |}.

(** The objects [rs] stand, one by one, for the identifiers [xs]: each was
    built by [parents()] from the cache and has not been marked. *)
Definition stands (m : gmap string Commit) (cp : nat) (w : World)
    (rs : list nat) (xs : list string) : Prop :=
  Forall2 (λ r x, heap w !! r = Some (nodeOf m cp x)) rs xs.

(** Two paths of different length to one tagged commit: S has the parents
    A and T, A has the parent T, and T carries the tag. *)
Definition shortcut : list Commit :=
  [mkCommit "S" ["A"; "T"]; mkCommit "A" ["T"]; mkCommit "T" []].

Definition shortcutTags : gmap string string :=
  setTags ∅ [mkTag "v1.0.0" "T"].

(** The world [getHistory] leaves for the start commit S. *)
Definition shortcutWorld : World :=
  {| heap := [newLazyGitCommit (mkCommit "S" ["A"; "T"]) 0];
     providers := [{| commits := setCommits ∅ shortcut; page := 1 |}];
     network := [] |}.

(** A service whose tag listing fails with a value that is no [Error]. *)
Definition rejectingTags : Octokit :=
  {| listTags _ := Reject (NonError "rate limited");
     listCommits _ _ := Data [] |}.

(** A tag with the empty name on the start commit itself. *)
Definition unnamedTags : gmap string string :=
  setTags ∅ [mkTag EmptyString "C0"].

Definition rootWorld : World :=
  {| heap := [newLazyGitCommit (mkCommit "C0" []) 0];
     providers := [{| commits := setCommits ∅ rootOnly; page := 1 |}];
     network := [] |}.

(** ** Measures and invariants of concurrent provider calls *)

(** The requests a task may still make against a paging service: the one in
    flight and one per full page after it. *)
Definition owed (history : string → list Commit) (t : Task) : nat :=
  match t with
  | Resolved _ => 0
  | Pending hash reqPage =>
    1 + (length (history hash) / pageSize - reqPage)
  end.

Fixpoint due (history : string → list Commit) (tasks : list Task) : nat :=
  match tasks with
  | [] => 0
  | t :: tasks => owed history t + due history tasks
  end.

(** A request in flight was issued with a page number the counter has
    reached. *)
Definition issued (ps : ProviderState) (t : Task) : Prop :=
  match t with
  | Resolved _ => True
  | Pending _ reqPage => reqPage ≤ page ps
  end.


(** Every provider closure of the world stores commits under their own
    identifier. *)
Definition well_keyed (w : World) : Prop :=
  Forall (λ ps, keyed (commits ps)) (providers w).

(** A service that lists the merge commit M alone on page 0 of its history
    and each of its parents A and B on page 1 of theirs, so that both parents
    are fetched when M is expanded. *)
Definition scattered : Octokit :=
  {| listTags _ := Data [];
     listCommits sha p :=
       Data (if bool_decide (sha = "M" ∧ p = 0)
             then [mkCommit "M" ["A"; "B"]]
             else if bool_decide (sha = "A" ∧ p = 1) then [mkCommit "A" []]
             else if bool_decide (sha = "B" ∧ p = 1) then [mkCommit "B" []]
             else []) |}.

(** The world after [getHistory] for M, with the response to the second
    request in flight arriving first. *)
Definition scatteredWorld : World :=
  {| heap := [newLazyGitCommit (mkCommit "M" ["A"; "B"]) 0];
     providers := [{| commits := setCommits ∅ [mkCommit "M" ["A"; "B"]];
                      page := 1 |}];
     network := [1] |}.

(** The deliveries that suffice for the provider calls started together for
    [hashes] against a paging service. *)
Definition budget (history : string → list Commit) (hashes : list string)
    : nat :=
  sum_list (map (λ h, 1 + length (history h) / pageSize) hashes).

(** Two hundred tags: two full pages and nothing after them. *)
Definition twoFullPages : list Tag := replicate 200 (mkTag "v1.0.0" "c0").

(** ** The same run in another store *)






(** What an outcome shows to the caller of [run]: everything but the store. *)
Definition observed {A} (o : outcome (A * World)) : outcome A :=
  fst <$> o.

(** ** The test of line 148 *)

(** For comparison: the loop of [findClosestTag] with the test
    [if (head.visited) continue] taken out. *)
Fixpoint findClosestTag_loop_unguarded (fuel : nat) (octokit : Octokit)
    (tags : gmap string string) (todo : list (option nat)) (depth : nat)
    (w : World) : outcome (Closest * World) :=
  match todo with
  | [] => Ret ({| tag := EmptyString; distance := -1 |}, w)
  | head :: todo =>
    match fuel with
    | 0 => Timeout
    | S fuel' =>
      match head with
      | None =>
        findClosestTag_loop_unguarded fuel' octokit tags (todo ++ [None])
          (depth + 1) w
      | Some head =>
        match tags !! sha (heap w !!! head) with
        | Some candidateTag =>
          Ret ({| tag := candidateTag; distance := Z.of_nat depth |}, w)
        | None =>
          '(ps, w) ← parents fuel' octokit head (markVisited head w);
          findClosestTag_loop_unguarded fuel' octokit tags
            (todo ++ map Some ps) depth w
        end
      end
    end
  end.

(** The objects of the frontier. *)
Definition refsOf (todo : list (option nat)) : list nat := omap id todo.

(** Every object of the frontier occurs in it once, exists, and is not
    marked. *)
Definition fresh (w : World) (todo : list (option nat)) : Prop :=
  NoDup (refsOf todo)
  ∧ Forall (λ r, r < length (heap w) ∧ visited (heap w !!! r) = false)
           (refsOf todo).

(** A service on which both parents of the merge commit M are missing:
    their listings are empty on the page that is asked for. *)
Definition orphaned : Octokit :=
  {| listTags _ := Data [];
     listCommits sha p :=
       Data (if bool_decide (sha = "M" ∧ p = 0)
             then [mkCommit "M" ["A"; "B"]]
             else []) |}.

(** A listing that names the parents of each of its commits. *)
Definition listing_closed (l : list Commit) : Prop :=
  ∀ c, c ∈ l → Forall (λ p, p ∈ map c_sha l) (c_parents c).

(** [x] is an ancestor of [start] (or [start] itself). *)
Definition reaches (m : gmap string Commit) (start x : string) : Prop :=
  ∃ n, path m start x n.

(** Every object of the frontier stands for a commit reached from [start]. *)
Definition frontier_of (m : gmap string Commit) (cp : nat) (start : string)
    (w : World) (todo : list (option nat)) : Prop :=
  Forall (λ r, ∃ x, heap w !! r = Some (nodeOf m cp x) ∧ reaches m start x)
         (refsOf todo).

(** One of the three awaited stages of [run] throws [e]: the tag listing,
    the resolution of the start commit, or the search (whose provider calls
    list commits and look the cache up). *)
Definition stage_throws (fuel : nat) (octokit : Octokit) (env : Env)
    (w : World) (e : Thrown) : Prop :=
  getTags fuel octokit = Throw e
  ∨ (∃ tags,
       getTags fuel octokit = Ret tags
       ∧ getHistory fuel octokit (GITHUB_SHA env) w = Throw e)
  ∨ (∃ tags history w',
       getTags fuel octokit = Ret tags
       ∧ getHistory fuel octokit (GITHUB_SHA env) w = Ret (history, w')
       ∧ findClosestTag fuel octokit tags history w' = Throw e).

(** ** Services for the further properties *)

(** A service that answers every tag request with the same full page. *)
Definition endlessTags : Octokit :=
  {| listTags _ := Data (replicate pageSize (mkTag "v1.0.0" "c0"));
     listCommits _ _ := Data [] |}.

(** One full page of tags, then a rejected request. *)
Definition failingSecondPage : Octokit :=
  {| listTags p :=
       if bool_decide (p = 0)
       then Data (replicate pageSize (mkTag "v1.0.0" "c0"))
       else Reject (ErrorObj "Bad credentials");
     listCommits _ _ := Data [] |}.

(** Three tags, two of them on the commit C0. *)
Definition retagged : list Tag :=
  [mkTag "v1.0.0" "C0"; mkTag "v0.9.0" "C1"; mkTag "latest" "C0"].

(** The provider state [ps'] holds every identifier [ps] holds, and its page
    counter is not behind. *)
Definition cache_grows (ps ps' : ProviderState) : Prop :=
  (∀ x, is_Some (commits ps !! x) → is_Some (commits ps' !! x))
  ∧ page ps ≤ page ps'.

(** A task that has settled for [hash] found it in the cache. *)
Definition settled_in (ps : ProviderState) (hash : string) (t : Task)
    : Prop :=
  match t with
  | Resolved _ => is_Some (commits ps !! hash)
  | Pending hash' _ => hash' = hash
  end.

(** A service that lists the commit c0 alone, whatever is asked for. *)
Definition singleCommit : Octokit :=
  pagedService [] (λ _, [mkCommit "c0" []]).

(** A service whose commit pages are always full and never hold "c0". *)
Definition endlessCommits : Octokit :=
  {| listTags _ := Data [];
     listCommits _ _ := Data (replicate pageSize (mkCommit "c1" ["c0"])) |}.

(** A merge commit S whose two parents A and B are both tagged. *)
Definition twoTagged : list Commit :=
  [mkCommit "S" ["A"; "B"]; mkCommit "A" []; mkCommit "B" []].

Definition twoTaggedTags : gmap string string :=
  setTags ∅ [mkTag "b-1.0" "B"; mkTag "a-1.0" "A"].

Definition twoTaggedWorld : World :=
  {| heap := [newLazyGitCommit (mkCommit "S" ["A"; "B"]) 0];
     providers := [{| commits := setCommits ∅ twoTagged; page := 1 |}];
     network := [] |}.

(** The store [w'] keeps the objects of [w]: same identifier, parents and
    provider, and a mark once set stays set. *)
Definition keeps_objects (w w' : World) : Prop :=
  length (providers w') = length (providers w)
  ∧ ∀ i n, heap w !! i = Some n →
      ∃ n', heap w' !! i = Some n'
            ∧ sha n' = sha n
            ∧ parentSha n' = parentSha n
            ∧ commitProvider n' = commitProvider n
            ∧ (visited n = true → visited n' = true).

(** ** Runners *)

(** A runner on which both calls of lines 29-30 return. *)
Definition runner : Host :=
  {| setOutput _ _ := Data tt; appendFileSync _ _ := Data tt |}.

(** A runner on which the file [missing] cannot be opened for appending. *)
Definition runnerWithout (missing : string) : Host :=
  {| setOutput _ _ := Data tt;
     appendFileSync path _ :=
       if bool_decide (path = missing)
       then Reject (ErrorObj ("ENOENT: no such file or directory, open '"
                              +:+ path +:+ "'"))
       else Data tt |}.

(** An environment whose [GITHUB_ENV] names a file in a directory that does
    not exist. *)
Definition strayEnv (sha : string) : Env :=
  {| GITHUB_SHA := sha; GITHUB_ENV := "/nonexistent-dir/env" |}.

(** * Properties *)

(** ** Unfolding lemmas for the loops *)

Lemma settle_done fuel octokit tasks ps net :
  pending_from 0 tasks = [] →
  settle fuel octokit tasks ps net = Ret (resolved tasks, ps, net).
Proof. intros H. destruct fuel; simpl; by rewrite H. Qed.

Lemma provider_loop_hit fuel octokit hash ps :
  is_Some (commits ps !! hash) →
  provider_loop fuel octokit hash ps = Ret ps.
Proof. intros H. destruct fuel; simpl; by rewrite decide_True. Qed.

Lemma loop_marker_only fuel octokit tags depth w :
  findClosestTag_loop fuel octokit tags [None] depth w = Timeout.
Proof.
  revert depth. induction fuel as [|fuel IH]; intros depth; [done|].
  simpl. apply IH.
Qed.

(** The marker is put back whenever it is taken out, so the frontier is
    never empty at the loop test: a result is always a match. *)
Lemma loop_returns_match fuel octokit tags :
  ∀ todo depth w r w',
    None ∈ todo →
    findClosestTag_loop fuel octokit tags todo depth w = Ret (r, w') →
    (Z.of_nat depth ≤ distance r)%Z ∧ ∃ x, tags !! x = Some (tag r).
Proof.
  induction fuel as [|fuel IH]; intros todo depth w r w' Hin Hret.
  - destruct todo; [inversion Hin | done].
  - destruct todo as [|[head|] todo]; [inversion Hin | |].
    + apply elem_of_cons in Hin as [?|Hin]; [done|].
      simpl in Hret.
      destruct (visited (heap w !!! head)); [by eapply IH|].
      destruct (tags !! sha (heap w !!! head)) as [t|] eqn:Ht.
      * inversion Hret; subst; simpl. split; [lia | eauto].
      * destruct (parents fuel octokit head (markVisited head w))
          as [[ps w2]| |]; simpl in Hret; try done.
        eapply IH; [|done]. apply elem_of_app. by left.
    + simpl in Hret. apply IH in Hret; [|apply elem_of_app; right; by left].
      destruct Hret as [? ?]. split; [lia | done].
Qed.

(** X10: whatever the service and the store, a result of [findClosestTag] is
    a name found in the tag index with a distance that is not negative: the
    pair of line 159 is never returned. *)
Lemma findClosestTag_returns_match fuel octokit tags history w r w' :
  findClosestTag fuel octokit tags history w = Ret (r, w') →
  (0 ≤ distance r)%Z ∧ ∃ x, tags !! x = Some (tag r).
Proof.
  intros H. apply loop_returns_match in H; [|right; by left].
  destruct H as [? ?]. split; [lia | done].
Qed.

(** ** The search without a reachable tag *)

(** A start commit without tag and without parents: after its expansion the
    frontier holds the marker alone. *)
Lemma findClosestTag_leaf_diverges fuel octokit tags history w :
  visited (heap w !!! history) = false →
  tags !! sha (heap w !!! history) = None →
  parentSha (heap w !!! history) = [] →
  findClosestTag fuel octokit tags history w = Timeout.
Proof.
  intros Hv Ht Hp. destruct fuel as [|fuel]; [done|].
  unfold findClosestTag. simpl. rewrite Hv, Ht.
  unfold parents, promiseAll.
  replace (parentSha (heap (markVisited history w) !!! history))
    with (@nil string).
  - simpl. rewrite settle_done by done. simpl. apply loop_marker_only.
  - simpl. destruct (decide (history < length (heap w))) as [Hlt|Hge].
    + by rewrite list_lookup_total_insert_eq.
    + by rewrite list_insert_ge by lia.
Qed.

(** C1 (code): on a repository with a single untagged root commit the
    history is resolved, and then [findClosestTag] returns for no amount of
    fuel: once the root is expanded the frontier holds the marker alone,
    which is taken out and put back for ever.  The sentinel of line 159 is
    never produced. *)
Theorem findClosestTag_untagged_root_never_returns :
  ∀ net, ∃ history w,
    getHistory 1 (hostedRepo [] rootOnly) "C0" (emptyWorld net)
      = Ret (history, w)
    ∧ ∀ fuel,
        findClosestTag fuel (hostedRepo [] rootOnly) ∅ history w = Timeout.
Proof.
  intros net. eexists _, _. split; [vm_compute; reflexivity|].
  intros fuel. by apply findClosestTag_leaf_diverges.
Qed.

(** ** Revisits *)

(** The merge diamond of the specification: whichever parent of the merge
    is listed first, the tag of C0 is found at distance 2, and C0 is never
    expanded. *)
Lemma diamond_distance_two net first second :
  (first = "C1" ∧ second = "C2") ∨ (first = "C2" ∧ second = "C1") →
  ∃ w, resolve 10 (hostedRepo [mkTag "v1.0.0" "C0"] (diamond first second))
         (ciEnv "C3") (emptyWorld net)
       = Ret ({| tag := "v1.0.0"; distance := 2 |}, w)
     ∧ expansions "C0" w = 0.
Proof.
  intros [[-> ->]|[-> ->]]; eexists;
    (split; [vm_compute; reflexivity|vm_compute; reflexivity]).
Qed.

(** C3 (code): in the diamond placed on a tagged root R (start C3, parents C1
    and C2, both children of C0, whose parent is R) the search returns
    distance 3 and the shared ancestor C0 has been expanded twice: each
    [parents()] call builds new objects, so the object reached through C2
    does not carry the flag set on the one reached through C1. *)
Theorem diamond_shared_ancestor_expanded_twice :
  ∀ net, ∃ w,
    resolve 10 (hostedRepo [mkTag "v1.0.0" "R"] diamondOnRoot)
      (ciEnv "C3") (emptyWorld net)
    = Ret ({| tag := "v1.0.0"; distance := 3 |}, w)
    ∧ expansions "C0" w = 2.
Proof.
  intros net. eexists.
  split; [vm_compute; reflexivity|vm_compute; reflexivity].
Qed.

(** What [parents()] does to the store: it appends unmarked objects and
    returns their references. *)
Lemma parents_shape fuel octokit this w refs w' :
  parents fuel octokit this w = Ret (refs, w') →
  ∃ nodes,
    refs = seq (length (heap w)) (length nodes)
    ∧ heap w' = heap w ++ nodes
    ∧ Forall (λ n, visited n = false) nodes.
Proof.
  unfold parents.
  destruct (promiseAll fuel octokit (parentSha (heap w !!! this))
              (providers w !!! commitProvider (heap w !!! this)) (network w))
    as [[[cs ps] net]| |]; cbn; try done.
  intros Heq. simplify_eq.
  eexists. split; [|split; [reflexivity|]].
  - by rewrite length_map.
  - apply Forall_forall. intros n Hn.
    apply list_elem_of_fmap in Hn as (c & -> & _). done.
Qed.

Lemma refsOf_app todo todo' :
  refsOf (todo ++ todo') = refsOf todo ++ refsOf todo'.
Proof. apply omap_app. Qed.

Lemma refsOf_Some refs : refsOf (map Some refs) = refs.
Proof. induction refs as [|r refs IH]; [done|]. cbn. by f_equal. Qed.

(** Expanding the head of a fresh frontier leaves a fresh frontier: the
    objects that were waiting are other objects than the one just marked,
    and the ones appended are new. *)
Lemma fresh_expand fuel octokit head todo w refs w' :
  fresh w (Some head :: todo) →
  parents fuel octokit head (markVisited head w) = Ret (refs, w') →
  fresh w' (todo ++ map Some refs).
Proof.
  intros [Hnd Hall] Hp.
  apply parents_shape in Hp as (nodes & -> & Hheap & Hnodes).
  cbn in Hnd, Hall. apply NoDup_cons in Hnd as [Hhead Hnd].
  apply Forall_cons in Hall as [[Hlt _] Hall].
  cbn in Hheap. unfold fresh.
  rewrite refsOf_app, refsOf_Some. cbn. rewrite length_insert.
  rewrite Forall_forall in Hall. split.
  - apply NoDup_app. split; [done|]. split; [|apply NoDup_seq].
    intros r Hr Hin. apply elem_of_seq in Hin.
    destruct (Hall r Hr) as [Hr' _]. lia.
  - apply Forall_app. split; apply Forall_forall; intros r Hr.
    + destruct (Hall r Hr) as [Hr' Hv].
      rewrite Hheap, length_app, length_insert. split; [lia|].
      rewrite lookup_total_app_l by (by rewrite length_insert).
      rewrite list_lookup_total_insert_ne; [done|]. by intros ->.
    + apply elem_of_seq in Hr as [Hge Hlt'].
      rewrite Hheap, length_app, length_insert. split; [lia|].
      rewrite lookup_total_app_r by (rewrite length_insert; lia).
      rewrite length_insert. rewrite Forall_forall in Hnodes.
      apply Hnodes. apply list_elem_of_lookup_total_2. lia.
Qed.

(** The frontier never holds a marked object: the test of line 148 fails
    every time, and the loop runs as it would without it. *)
Lemma visited_test_never_succeeds fuel octokit tags :
  ∀ todo depth w,
    fresh w todo →
    findClosestTag_loop fuel octokit tags todo depth w
    = findClosestTag_loop_unguarded fuel octokit tags todo depth w.
Proof.
  induction fuel as [|fuel IH]; intros todo depth w Hf; [by destruct todo|].
  destruct todo as [|[head|] todo]; [done| |].
  - cbn [findClosestTag_loop findClosestTag_loop_unguarded].
    assert (Hv : visited (heap w !!! head) = false).
    { destruct Hf as [_ Hall]. cbn in Hall.
      by apply Forall_cons in Hall as [[_ ?] _]. }
    rewrite Hv.
    destruct (tags !! sha (heap w !!! head)); [done|].
    destruct (parents fuel octokit head (markVisited head w))
      as [[refs w']| |] eqn:Hp; cbn; try done.
    apply IH. by eapply fresh_expand.
  - cbn [findClosestTag_loop findClosestTag_loop_unguarded].
    apply IH. destruct Hf as [Hnd Hall]. unfold fresh.
    rewrite refsOf_app. cbn. by rewrite !app_nil_r.
Qed.

(** X11: in a search started on the object [getHistory] returns, the test
    of line 148 never succeeds: the search runs, step for step, as the loop
    without that test does. *)
Lemma findClosestTag_unguarded fuel fuel' octokit tags sha w history w' :
  getHistory fuel' octokit sha w = Ret (history, w') →
  findClosestTag fuel octokit tags history w'
  = findClosestTag_loop_unguarded fuel octokit tags [Some history; None] 0 w'.
Proof.
  intros Hh. apply visited_test_never_succeeds.
  unfold getHistory in Hh.
  destruct (provider fuel' octokit sha {| commits := ∅; page := 0 |})
    as [[c ps]| |]; cbn in Hh; try done.
  simplify_eq. split; cbn.
  - apply NoDup_singleton.
  - constructor; [|constructor]. rewrite length_app. cbn. split; [lia|].
    rewrite lookup_total_app_r by lia. by rewrite Nat.sub_diag.
Qed.

(** ** The provider and its page counter *)

(** C4 (code): a linear history of 101 commits, c100 down to c0.  The call
    made by [getHistory] for c100 reads page 0 and leaves [page = 1].  The
    listing rooted at c0 surfaces c0 (on its page 0), yet the next provider
    call, for c0, asks for page 1 of that listing, finds it empty and throws
    the cache-miss error. *)
Theorem provider_misses_surfaced_commit :
  ∀ net fuel,
    fst <$> getHistory 1 (hostedRepo [] (chain 100)) "c100" (emptyWorld net)
      = Ret 0
    ∧ listCommits (hostedRepo [] (chain 100)) "c0" 0
      = Data [mkCommit "c0" []]
    ∧ ('(_, w) ← getHistory 1 (hostedRepo [] (chain 100)) "c100"
                   (emptyWorld net);
       provider (S fuel) (hostedRepo [] (chain 100)) "c0"
         (providers w !!! 0))
      = Throw (ErrorObj (undefined_message "c0"
                           {| commits := ∅; page := 2 |})).
Proof.
  intros net fuel. repeat split; vm_compute; reflexivity.
Qed.

(** ** Breadth-first search over a loaded ancestry *)

Lemma mapM_Ret {A B} (f : A → outcome B) (l : list A) (k : list B) :
  Forall2 (λ a b, f a = Ret b) l k → mapM f l = Ret k.
Proof.
  induction 1 as [|a b l k Ha _ IH]; [done|].
  simpl. rewrite Ha. simpl. by rewrite IH.
Qed.

Lemma pending_from_resolved i (cs : list Commit) :
  pending_from i (map Resolved cs) = [].
Proof. revert i. induction cs; intros i; simpl; auto. Qed.

Lemma resolved_map_Resolved (cs : list Commit) :
  resolved (map Resolved cs) = cs.
Proof.
  induction cs; simpl; [done|]. unfold resolved in *. simpl. by f_equal.
Qed.

(** Identifiers that are all cached are resolved without a request: the
    provider state and the network are left as they were. *)
Lemma promiseAll_cached fuel octokit hashes ps net cs :
  Forall2 (λ h c, commits ps !! h = Some c) hashes cs →
  promiseAll fuel octokit hashes ps net = Ret (cs, ps, net).
Proof.
  intros H. unfold promiseAll.
  rewrite (mapM_Ret _ _ (map Resolved cs)).
  - simpl. rewrite settle_done by apply pending_from_resolved.
    by rewrite resolved_map_Resolved.
  - apply Forall2_fmap_r. eapply Forall2_impl; [exact H|].
    intros h c Hc. unfold provider_enter, provider_finish.
    rewrite decide_True by (by rewrite Hc). by rewrite Hc.
Qed.

Lemma parentsOf_stored m x p :
  cache_closed m → p ∈ parentsOf m x →
  ∃ c, m !! p = Some c ∧ c_sha c = p ∧ c_parents c = parentsOf m p.
Proof.
  intros Hc Hp. unfold parentsOf in Hp.
  destruct (m !! x) as [c|] eqn:Hx; [|inversion Hp].
  destruct (Hc _ _ Hx) as [_ Hall].
  rewrite Forall_forall in Hall. destruct (Hall _ Hp) as [c' Hc'].
  exists c'. destruct (Hc _ _ Hc') as [Hk _].
  unfold parentsOf. by rewrite Hc'.
Qed.

Lemma stored_commits m cp (l : list string) :
  Forall (λ p, ∃ c, m !! p = Some c ∧ c_sha c = p
                    ∧ c_parents c = parentsOf m p) l →
  ∃ cs, Forall2 (λ h c, m !! h = Some c) l cs
        ∧ map (λ c, newLazyGitCommit c cp) cs = map (nodeOf m cp) l.
Proof.
  induction 1 as [|p l (c & Hc & Hk & Hp) _ (cs & IH1 & IH2)].
  - by exists [].
  - exists (c :: cs). split; [by constructor|].
    simpl. rewrite IH2. f_equal.
    unfold newLazyGitCommit, nodeOf. by rewrite Hk, Hp.
Qed.

Section Search.
Variable octokit : Octokit.
Variable tags : gmap string string.
Variable m : gmap string Commit.
Variable cp : nat.
Hypothesis Hclosed : cache_closed m.

(** One iteration on an object that is neither visited nor tagged. *)
Lemma loop_expand fuel r x todo depth w :
  serves m cp w →
  heap w !! r = Some (nodeOf m cp x) →
  tags !! x = None →
  findClosestTag_loop (S fuel) octokit tags (Some r :: todo) depth w
  = findClosestTag_loop fuel octokit tags
      (todo ++ map Some (seq (length (heap w)) (length (parentsOf m x))))
      depth (expanded m cp r x w).
Proof.
  intros (ps & Hps & Hm) Hr Ht.
  assert (Hlt : r < length (heap w)) by (by eapply lookup_lt_Some).
  destruct (stored_commits m cp (parentsOf m x)) as (cs & Hcs & Hnew).
  { apply Forall_forall. intros p Hp. by eapply parentsOf_stored. }
  simpl. rewrite (list_lookup_total_correct _ _ _ Hr). simpl. rewrite Ht.
  unfold parents. simpl.
  rewrite list_lookup_total_insert_eq by done. simpl.
  rewrite (list_lookup_total_correct _ _ _ Hr). simpl.
  rewrite (list_lookup_total_correct _ _ _ Hps).
  rewrite (promiseAll_cached _ _ _ _ _ cs) by (by rewrite Hm).
  cbn. rewrite length_insert, Hnew. rewrite (list_insert_id _ _ _ Hps).
  by rewrite <- (Forall2_length _ _ _ Hcs).
Qed.

Lemma stands_seq w a (L : list string) :
  (∀ i x, L !! i = Some x → heap w !! (a + i) = Some (nodeOf m cp x)) →
  stands m cp w (seq a (length L)) L.
Proof.
  intros H. apply Forall2_same_length_lookup_2; [by rewrite length_seq|].
  intros i r x Hr Hx. apply lookup_seq in Hr as [-> _]. by apply H.
Qed.

Lemma stands_seq_lookup w a k (L : list string) i x :
  stands m cp w (seq a k) L → L !! i = Some x →
  heap w !! (a + i) = Some (nodeOf m cp x).
Proof.
  intros H Hx.
  destruct (Forall2_lookup_r _ _ _ _ _ H Hx) as (r & Hr & Hn).
  by apply lookup_seq in Hr as [-> _].
Qed.

Lemma stands_lt w rs xs r :
  stands m cp w rs xs → r ∈ rs → r < length (heap w).
Proof.
  intros H Hr. apply list_elem_of_lookup in Hr as [i Hi].
  destruct (Forall2_lookup_l _ _ _ _ _ H Hi) as (x & _ & Hn).
  by eapply lookup_lt_Some.
Qed.

Lemma stands_frame w w' rs xs :
  stands m cp w rs xs →
  (∀ r, r ∈ rs → heap w' !! r = heap w !! r) →
  stands m cp w' rs xs.
Proof.
  intros H Hf. apply Forall2_same_length_lookup_2.
  - by eapply Forall2_length.
  - intros i r x Hr Hx. rewrite Hf by (by eapply list_elem_of_lookup_2).
    destruct (Forall2_lookup_l _ _ _ _ _ H Hr) as (x' & Hx' & Hn).
    by simplify_eq.
Qed.

(** Expanding a run of untagged objects at the head of the frontier moves
    their parents, in order, to its tail. *)
Lemma loop_drain rs xs :
  ∀ w rest depth,
    serves m cp w → stands m cp w rs xs → NoDup rs →
    Forall (λ x, tags !! x = None) xs →
    ∃ w',
      providers w' = providers w ∧ network w' = network w
      ∧ length (heap w') = length (heap w) + length (nextLevel m xs)
      ∧ (∀ r, r < length (heap w) → r ∉ rs → heap w' !! r = heap w !! r)
      ∧ stands m cp w' (seq (length (heap w)) (length (nextLevel m xs)))
          (nextLevel m xs)
      ∧ ∀ fuel,
          findClosestTag_loop (length xs + fuel) octokit tags
            (map Some rs ++ rest) depth w
          = findClosestTag_loop fuel octokit tags
              (rest ++ map Some (seq (length (heap w))
                                     (length (nextLevel m xs))))
              depth w'.
Proof.
  revert rs. induction xs as [|x xs IH];
    intros rs w rest depth Hs Hst Hnd Hun.
  - apply Forall2_nil_inv_r in Hst as ->. exists w.
    change (nextLevel m []) with (@nil string). simpl.
    repeat split; try done; try lia.
    + constructor.
    + intros fuel. by rewrite app_nil_r.
  - apply Forall2_cons_inv_r in Hst as (r & rs' & Hr & Hst & ->).
    apply NoDup_cons in Hnd as [Hnotin Hnd].
    apply Forall_cons in Hun as [Ht Hun].
    assert (Hlt : r < length (heap w)) by (by eapply lookup_lt_Some).
    set (w2 := expanded m cp r x w).
    set (l0 := length (heap w)).
    set (P := parentsOf m x).
    assert (Hlen2 : length (heap w2) = l0 + length P).
    { unfold w2, expanded. simpl.
      by rewrite length_app, length_insert, length_map. }
    assert (Hold : ∀ r', r' < l0 → r' ≠ r → heap w2 !! r' = heap w !! r').
    { intros r' Hr' Hne. unfold w2, expanded. simpl.
      rewrite lookup_app_l by (by rewrite length_insert).
      by rewrite list_lookup_insert_ne. }
    assert (Hnew : ∀ i p, P !! i = Some p →
              heap w2 !! (l0 + i) = Some (nodeOf m cp p)).
    { intros i p Hp. unfold w2, expanded. simpl.
      rewrite lookup_app_r by (rewrite length_insert; unfold l0; lia).
      rewrite length_insert.
      replace (l0 + i - length (heap w)) with i by (unfold l0; lia).
      rewrite list_lookup_fmap. fold P. by rewrite Hp. }
    destruct (IH rs' w2 (rest ++ map Some (seq l0 (length P))) depth)
      as (w' & Hprov & Hnet & Hlen & Hframe & Hnext & Hloop).
    { destruct Hs as (ps & Hps & Hm). by exists ps. }
    { eapply stands_frame; [exact Hst|].
      intros r' Hr'. apply Hold.
      - by eapply stands_lt.
      - intros ->. done. }
    { done. }
    { done. }
    exists w'.
    assert (Hnl : nextLevel m (x :: xs) = P ++ nextLevel m xs) by done.
    rewrite Hnl, length_app.
    split; [by rewrite Hprov|]. split; [by rewrite Hnet|].
    split; [rewrite Hlen, Hlen2; lia|].
    split; [|split].
    + intros r' Hr' Hni. apply not_elem_of_cons in Hni as [Hne Hni].
      rewrite Hframe by (by (rewrite Hlen2; lia) || done).
      by apply Hold.
    + rewrite <- length_app. apply stands_seq. intros i p Hp.
      destruct (decide (i < length P)) as [Hi|Hi].
      * rewrite lookup_app_l in Hp by done.
        rewrite Hframe; [by apply Hnew| rewrite Hlen2; lia|].
        intros Hin. apply (stands_lt _ _ _ _ Hst) in Hin. lia.
      * rewrite lookup_app_r in Hp by lia.
        replace (l0 + i) with (length (heap w2) + (i - length P))
          by (rewrite Hlen2; lia).
        by eapply stands_seq_lookup.
    + intros fuel.
      change (length (x :: xs) + fuel) with (S (length xs + fuel)).
      change (map Some (r :: rs') ++ rest)
        with (Some r :: (map Some rs' ++ rest)).
      rewrite (loop_expand _ r x) by done.
      rewrite <- app_assoc. fold w2 l0 P. rewrite Hloop.
      rewrite <- app_assoc, <- map_app, Hlen2, <- seq_app. done.
Qed.

(** The first tagged object of the current level ends the search. *)
Lemma loop_find pre y post t rs rest depth w :
  serves m cp w → stands m cp w rs (pre ++ y :: post) → NoDup rs →
  Forall (λ x, tags !! x = None) pre → tags !! y = Some t →
  ∃ w', ∀ fuel, length pre < fuel →
    findClosestTag_loop fuel octokit tags (map Some rs ++ rest) depth w
    = Ret ({| tag := t; distance := Z.of_nat depth |}, w').
Proof.
  intros Hs Hst Hnd Hun Ht.
  apply Forall2_app_inv_r in Hst as (rpre & rs2 & Hpre & Hst & ->).
  apply Forall2_cons_inv_r in Hst as (ry & rpost & Hy & Hpost & ->).
  apply NoDup_app in Hnd as (Hnd1 & Hdisj & _).
  destruct (loop_drain rpre pre w (Some ry :: map Some rpost ++ rest) depth)
    as (w' & _ & _ & _ & Hframe & _ & Hloop); try done.
  exists w'. intros fuel Hfuel.
  replace fuel with (length pre + S (fuel - S (length pre))) by lia.
  rewrite map_app, <- app_assoc. simpl. rewrite Hloop. simpl.
  assert (Hy' : heap w' !! ry = Some (nodeOf m cp y)).
  { rewrite Hframe; [done|by eapply lookup_lt_Some|].
    intros Hin. apply (Hdisj _ Hin). by left. }
  rewrite (list_lookup_total_correct _ _ _ Hy'). simpl. by rewrite Ht.
Qed.

(** Level after level: when the first [d] levels carry no tag, the search
    reaches level [d] with the depth counter advanced by [d]. *)
Lemma loop_levels d :
  ∀ xs rs w depth pre y post t,
    serves m cp w → stands m cp w rs xs → NoDup rs →
    (∀ k, k < d → Forall (λ x, tags !! x = None) (levelFrom m xs k)) →
    levelFrom m xs d = pre ++ y :: post →
    Forall (λ x, tags !! x = None) pre → tags !! y = Some t →
    ∃ (n : nat) w', ∀ fuel, n ≤ fuel →
      findClosestTag_loop fuel octokit tags (map Some rs ++ [None]) depth w
      = Ret ({| tag := t; distance := Z.of_nat (depth + d) |}, w').
Proof.
  induction d as [|d IH];
    intros xs rs w depth pre y post t Hs Hst Hnd Hlow Hlev Hun Ht.
  - simpl in Hlev. subst xs.
    destruct (loop_find pre y post t rs [None] depth w) as [w' Hw'];
      try done.
    exists (S (length pre)), w'. intros fuel Hfuel.
    rewrite Nat.add_0_r. apply Hw'. lia.
  - simpl in Hlev.
    destruct (loop_drain rs xs w [None] depth)
      as (w1 & Hprov & _ & _ & _ & Hnext & Hloop); try done.
    { apply (Hlow 0). lia. }
    destruct (IH (nextLevel m xs)
                 (seq (length (heap w)) (length (nextLevel m xs)))
                 w1 (depth + 1) pre y post t) as (n & w' & Hw'); try done.
    { destruct Hs as (ps & Hps & Hm). exists ps. by rewrite Hprov. }
    { apply NoDup_seq. }
    { intros k Hk. apply (Hlow (S k)). lia. }
    exists (length xs + S n), w'. intros fuel Hfuel.
    replace fuel with (length xs + S (fuel - S (length xs))) by lia.
    rewrite Hloop. simpl.
    replace (depth + S d) with (depth + 1 + d) by lia.
    apply Hw'. lia.
Qed.
Lemma path_snoc x y z n :
  path m x y n → z ∈ parentsOf m y → path m x z (S n).
Proof.
  induction 1 as [x|x y' y n Hedge _ IH]; intros Hz.
  - econstructor; [exact Hz|constructor].
  - econstructor; [exact Hedge|]. by apply IH.
Qed.

(** Without a tag on any commit reached from [start] the loop goes on for
    as long as it is given fuel: objects are expanded, the marker is put
    back, and nothing ever leaves the loop. *)
Lemma loop_without_tag start fuel :
  (∀ x, reaches m start x → tags !! x = None) →
  ∀ todo depth w,
    serves m cp w → NoDup (refsOf todo) → frontier_of m cp start w todo →
    None ∈ todo →
    findClosestTag_loop fuel octokit tags todo depth w = Timeout.
Proof.
  intros Hnone. induction fuel as [|fuel IH];
    intros todo depth w Hs Hnd Hfr Hin.
  - destruct todo; [inversion Hin|done].
  - destruct todo as [|[r|] todo]; [inversion Hin| |].
    + cbn in Hnd, Hfr. apply NoDup_cons in Hnd as [Hr Hnd].
      unfold frontier_of in Hfr. cbn in Hfr.
      apply Forall_cons in Hfr as [(x & Hx & Hreach) Hfr].
      apply elem_of_cons in Hin as [?|Hin]; [done|].
      rewrite (loop_expand _ r x) by (done || by apply Hnone).
      assert (Hlt : r < length (heap w)) by (by eapply lookup_lt_Some).
      rewrite Forall_forall in Hfr.
      apply IH.
      * destruct Hs as (ps & Hps & Hm). by exists ps.
      * rewrite refsOf_app, refsOf_Some. apply NoDup_app.
        split; [done|]. split; [|apply NoDup_seq].
        intros r' Hr' Hseq. apply elem_of_seq in Hseq.
        destruct (Hfr r' Hr') as (x' & Hx' & _).
        apply lookup_lt_Some in Hx'. lia.
      * unfold frontier_of. rewrite refsOf_app, refsOf_Some.
        apply Forall_app. split; apply Forall_forall; intros r' Hr'.
        -- destruct (Hfr r' Hr') as (x' & Hx' & Hreach').
           exists x'. split; [|done]. cbn.
           rewrite lookup_app_l
             by (rewrite length_insert; by eapply lookup_lt_Some).
           rewrite list_lookup_insert_ne; [done|]. by intros ->.
        -- apply elem_of_seq in Hr' as [Hge Hlt'].
           destruct (lookup_lt_is_Some_2 (parentsOf m x)
                       (r' - length (heap w))) as [p Hp]; [lia|].
           exists p. split.
           ++ cbn. rewrite lookup_app_r by (rewrite length_insert; lia).
              rewrite length_insert, list_lookup_fmap. by rewrite Hp.
           ++ destruct Hreach as [n Hn]. exists (S n).
              eapply path_snoc; [exact Hn|]. by eapply list_elem_of_lookup_2.
      * apply elem_of_app. by left.
    + cbn [findClosestTag_loop]. apply IH; try done.
      * by rewrite refsOf_app, app_nil_r.
      * unfold frontier_of. by rewrite refsOf_app, app_nil_r.
      * apply elem_of_app. right. by left.
Qed.

End Search.

(** ** Levels and paths *)

Lemma path_zero m x y : path m x y 0 ↔ x = y.
Proof. split; [by inversion 1 | intros ->; constructor]. Qed.

Lemma path_succ m x y n :
  path m x y (S n) ↔ ∃ z, z ∈ parentsOf m x ∧ path m z y n.
Proof.
  split.
  - inversion 1; subst. eauto.
  - intros (z & Hz & Hp). by econstructor.
Qed.

Lemma elem_of_levelFrom m n :
  ∀ xs y, y ∈ levelFrom m xs n ↔ ∃ x, x ∈ xs ∧ path m x y n.
Proof.
  induction n as [|n IH]; intros xs y; simpl.
  - split.
    + intros Hy. exists y. split; [done|constructor].
    + intros (x & Hx & Hp). apply path_zero in Hp. by subst.
  - rewrite IH. unfold nextLevel. split.
    + intros (z & Hz & Hp). apply list_elem_of_bind in Hz as (x & Hz & Hx).
      exists x. split; [done|]. apply path_succ. eauto.
    + intros (x & Hx & Hp). apply path_succ in Hp as (z & Hz & Hp).
      exists z. split; [|done]. apply list_elem_of_bind. eauto.
Qed.

Lemma first_tagged (tags : gmap string string) (l : list string) y :
  y ∈ l → is_Some (tags !! y) →
  ∃ pre y' t post,
    l = pre ++ y' :: post ∧ Forall (λ x, tags !! x = None) pre
    ∧ tags !! y' = Some t.
Proof.
  induction l as [|x l IH]; intros Hy Ht; [inversion Hy|].
  destruct (tags !! x) as [t|] eqn:Hx.
  - exists [], x, t, l. by repeat split.
  - apply elem_of_cons in Hy as [->|Hy].
    + rewrite Hx in Ht. by destruct Ht.
    + destruct (IH Hy Ht) as (pre & y' & t & post & -> & Hpre & Hy').
      exists (x :: pre), y', t, post. repeat split; [|done].
      by constructor.
Qed.

(** The search over a loaded ancestry, told by levels: when the first [d]
    levels carry no tag and [z] is the first tagged identifier of level [d],
    the search returns the tag of [z] and the distance [d]. *)
Lemma search_by_levels octokit tags w history cp ps rawCommit start d
    pre z post t :
  providers w !! cp = Some ps →
  cache_closed (commits ps) →
  commits ps !! start = Some rawCommit →
  heap w !! history = Some (newLazyGitCommit rawCommit cp) →
  (∀ k, k < d →
        Forall (λ x, tags !! x = None) (levelFrom (commits ps) [start] k)) →
  levelFrom (commits ps) [start] d = pre ++ z :: post →
  Forall (λ x, tags !! x = None) pre →
  tags !! z = Some t →
  ∃ n : nat, ∀ fuel, n ≤ fuel → ∃ w',
    findClosestTag fuel octokit tags history w
    = Ret ({| tag := t; distance := Z.of_nat d |}, w').
Proof.
  intros Hps Hclosed Hstart Hnode Hlow Hlev Hpre Hz.
  destruct (loop_levels octokit tags (commits ps) cp Hclosed d [start]
              [history] w 0 pre z post t) as (n & w' & Hw'); try done.
  - by exists ps.
  - constructor; [|constructor].
    destruct (Hclosed _ _ Hstart) as [Hk _].
    rewrite Hnode. f_equal. unfold newLazyGitCommit, nodeOf, parentsOf.
    by rewrite Hstart, Hk.
  - apply NoDup_singleton.
  - exists n. intros fuel Hfuel. exists w'. by apply Hw'.
Qed.

(** The nearest level with a tag, in terms of paths. *)
Lemma nearest_level (tags : gmap string string) m start y d :
  path m start y d →
  is_Some (tags !! y) →
  (∀ z n, path m start z n → is_Some (tags !! z) → d ≤ n) →
  (∀ k, k < d → Forall (λ x, tags !! x = None) (levelFrom m [start] k))
  ∧ ∃ pre z t post,
      levelFrom m [start] d = pre ++ z :: post
      ∧ Forall (λ x, tags !! x = None) pre
      ∧ tags !! z = Some t
      ∧ path m start z d.
Proof.
  intros Hpath Htag Hmin. split.
  - intros k Hk. apply Forall_forall. intros x Hx.
    apply elem_of_levelFrom in Hx as (x0 & Hx0 & Hp).
    apply list_elem_of_singleton in Hx0. subst x0.
    destruct (tags !! x) as [tx|] eqn:Htx; [|done].
    assert (d ≤ k) by (apply (Hmin x); [done|by rewrite Htx]). lia.
  - assert (Hy : y ∈ levelFrom m [start] d).
    { apply elem_of_levelFrom. exists start. split; [by left|done]. }
    destruct (first_tagged tags _ y Hy Htag)
      as (pre & z & t & post & Hlev & Hpre & Hz).
    exists pre, z, t, post. repeat split; try done.
    assert (Hin : z ∈ levelFrom m [start] d).
    { rewrite Hlev. apply elem_of_app. right. by left. }
    apply elem_of_levelFrom in Hin as (x & Hx & Hp).
    apply list_elem_of_singleton in Hx. by subst.
Qed.

(** X12: over a loaded ancestry in which no commit reached from the start
    is tagged, [findClosestTag] returns for no amount of fuel. *)
Lemma findClosestTag_without_tag_diverges octokit tags w history cp ps
    rawCommit start :
  providers w !! cp = Some ps →
  cache_closed (commits ps) →
  commits ps !! start = Some rawCommit →
  heap w !! history = Some (newLazyGitCommit rawCommit cp) →
  (∀ x, reaches (commits ps) start x → tags !! x = None) →
  ∀ fuel, findClosestTag fuel octokit tags history w = Timeout.
Proof.
  intros Hps Hclosed Hstart Hnode Hnone fuel.
  apply (loop_without_tag octokit tags (commits ps) cp Hclosed start fuel
           Hnone).
  - by exists ps.
  - apply NoDup_singleton.
  - constructor; [|constructor]. exists start. split; [|exists 0; constructor].
    destruct (Hclosed _ _ Hstart) as [Hk _].
    rewrite Hnode. f_equal. unfold newLazyGitCommit, nodeOf, parentsOf.
    by rewrite Hstart, Hk.
  - right. by left.
Qed.


(** The case of a single tagged ancestor: its tag and its depth are the
    result. *)
Lemma findClosestTag_unique_tagged_ancestor octokit tags w history cp ps
    rawCommit start y t d :
  providers w !! cp = Some ps →
  cache_closed (commits ps) →
  commits ps !! start = Some rawCommit →
  heap w !! history = Some (newLazyGitCommit rawCommit cp) →
  path (commits ps) start y d →
  tags !! y = Some t →
  (∀ z n, path (commits ps) start z n → is_Some (tags !! z) →
          z = y ∧ d ≤ n) →
  ∃ n : nat, ∀ fuel, n ≤ fuel → ∃ w',
    findClosestTag fuel octokit tags history w
    = Ret ({| tag := t; distance := Z.of_nat d |}, w').
Proof.
  intros Hps Hclosed Hstart Hnode Hpath Hy Honly.
  assert (Htag : is_Some (tags !! y)) by (by rewrite Hy).
  destruct (nearest_level tags (commits ps) start y d Hpath Htag)
    as (Hlow & pre & z & t' & post & Hlev & Hpre & Hz & Hzpath).
  { intros z n Hp Ht. by destruct (Honly z n Hp Ht). }
  assert (z = y) as ->.
  { destruct (Honly z d Hzpath); [by rewrite Hz|done]. }
  assert (t' = t) as -> by congruence.
  by eapply search_by_levels.
Qed.

Lemma shortcutWorld_from_getHistory :
  getHistory 1 (hostedRepo [mkTag "v1.0.0" "T"] shortcut) "S" (emptyWorld [])
  = Ret (0, shortcutWorld).
Proof. vm_compute. reflexivity. Qed.


(** ** The version string and the failure report *)


(** C7 as stated fails: the resolver returns v1.0.0 at distance 2, the
    version is set as the output, and the environment file, which cannot be
    opened, is not appended to; the run ends with a failure status. *)
Lemma run_output_without_append :
  observed (resolve 10 (hostedRepo [mkTag "v1.0.0" "C0"] twoAhead)
              (strayEnv "C2") (emptyWorld []))
  = Ret {| tag := "v1.0.0"; distance := 2 |}
  ∧ run 10 (hostedRepo [mkTag "v1.0.0" "C0"] twoAhead)
        (runnerWithout "/nonexistent-dir/env") (strayEnv "C2")
        (emptyWorld [])
    = Some [SetOutput "version" "v1.0.0-2-C2";
            SetFailed "ENOENT: no such file or directory, open '/nonexistent-dir/env'"]
  ∧ ¬ ∃ data,
        AppendFile "/nonexistent-dir/env" data
        ∈ default [] (run 10 (hostedRepo [mkTag "v1.0.0" "C0"] twoAhead)
                        (runnerWithout "/nonexistent-dir/env")
                        (strayEnv "C2") (emptyWorld [])).
Proof.
  split; [vm_compute; reflexivity|].
  assert (Hrun : run 10 (hostedRepo [mkTag "v1.0.0" "C0"] twoAhead)
                   (runnerWithout "/nonexistent-dir/env") (strayEnv "C2")
                   (emptyWorld [])
                 = Some [SetOutput "version" "v1.0.0-2-C2";
                         SetFailed "ENOENT: no such file or directory, open '/nonexistent-dir/env'"])
    by (vm_compute; reflexivity).
  split; [exact Hrun|]. rewrite Hrun. cbn.
  intros [data Hin].
  apply elem_of_cons in Hin as [Hin|Hin]; [done|].
  apply elem_of_cons in Hin as [Hin|Hin]; [done|].
  by apply elem_of_nil in Hin.
Qed.



(** A value thrown by a stage reaches the [catch] of [run] unchanged. *)
Lemma stage_throws_resolve fuel octokit env w e :
  stage_throws fuel octokit env w e →
  resolve fuel octokit env w = Throw e.
Proof.
  unfold resolve.
  intros [Ht|[(tags & Ht & Hh)|(tags & history & w' & Ht & Hh & Hf)]];
    rewrite Ht; cbn; [done| |]; rewrite Hh; cbn; done.
Qed.

(** C6 as stated fails: when the tag listing throws a value that is not an
    instance of [Error], the run ends without output and without a failure
    status. *)
Lemma run_swallows_non_error :
  stage_throws 1 rejectingTags (ciEnv "C0") (emptyWorld [])
    (NonError "rate limited")
  ∧ run 1 rejectingTags runner (ciEnv "C0") (emptyWorld []) = Some []
  ∧ ¬ ∃ message,
        run 1 rejectingTags runner (ciEnv "C0") (emptyWorld [])
        = Some [SetFailed message].
Proof.
  split; [by left|]. split; [reflexivity|].
  intros [message H]. discriminate H.
Qed.

(** C6 (amended): a value thrown by any of the three stages ends the run
    without version output and without a line appended to the environment
    file; when the value is an instance of [Error] the run reports a failure
    status with its message, otherwise it reports nothing. *)
Theorem run_reports_thrown_error fuel octokit host env w e :
  stage_throws fuel octokit env w e →
  run fuel octokit host env w
  = Some match e with
         | ErrorObj message => [SetFailed message]
         | NonError _ => []
         end.
Proof.
  intros H. apply stage_throws_resolve in H.
  unfold run. rewrite H. by destruct e.
Qed.

Lemma run_reports_thrown_error_witness :
  run 5 orphaned runner (ciEnv "M") (emptyWorld [])
  = Some [SetFailed (undefined_message "A" {| commits := ∅; page := 2 |})].
Proof.
  apply (run_reports_thrown_error 5 orphaned runner (ciEnv "M")
           (emptyWorld [])
           (ErrorObj (undefined_message "A" {| commits := ∅; page := 2 |}))).
  right. right. eexists _, _, _.
  split; [vm_compute; reflexivity|].
  split; [vm_compute; reflexivity|vm_compute; reflexivity].
Defined.

(** ** A tag whose name is the empty string *)

(** C10: the lookup of line 151 is compared with [undefined] only, so a
    commit mapped to the empty name is a match like any other.  Over a loaded
    ancestry, when the nearest tagged commits lie at distance [d] and carry
    the empty name, [findClosestTag] returns the empty tag with distance
    [d]: the tag field is that of the no-tag sentinel, the distance is not
    (it is not negative); at distance 0 the version is the empty string. *)
Theorem empty_tag_name_is_a_match octokit tags w history cp ps rawCommit
    start y d env :
  providers w !! cp = Some ps →
  cache_closed (commits ps) →
  commits ps !! start = Some rawCommit →
  heap w !! history = Some (newLazyGitCommit rawCommit cp) →
  path (commits ps) start y d →
  tags !! y = Some EmptyString →
  (∀ z n, path (commits ps) start z n → is_Some (tags !! z) → d ≤ n) →
  (∀ z, path (commits ps) start z d → is_Some (tags !! z) →
        tags !! z = Some EmptyString) →
  (∃ n : nat, ∀ fuel, n ≤ fuel → ∃ w',
      findClosestTag fuel octokit tags history w
      = Ret ({| tag := EmptyString; distance := Z.of_nat d |}, w'))
  ∧ (distance {| tag := EmptyString; distance := Z.of_nat d |} ≠ -1)%Z
  ∧ (d = 0 →
     publish env (version env {| tag := EmptyString;
                                 distance := Z.of_nat d |})
     = [SetOutput "version" EmptyString;
        AppendFile (GITHUB_ENV env) "VERSION="]).
Proof.
  intros Hps Hclosed Hstart Hnode Hpath Hy Hmin Hempty.
  assert (Htag : is_Some (tags !! y)) by (by rewrite Hy).
  destruct (nearest_level tags (commits ps) start y d Hpath Htag Hmin)
    as (Hlow & pre & z & t & post & Hlev & Hpre & Hz & Hzpath).
  assert (t = EmptyString) as ->.
  { rewrite Hempty in Hz by (by rewrite ?Hz). by simplify_eq. }
  repeat split.
  - by eapply search_by_levels.
  - simpl. lia.
  - intros ->. reflexivity.
Qed.

Lemma rootWorld_from_getHistory :
  getHistory 1 (hostedRepo [mkTag EmptyString "C0"] rootOnly) "C0"
    (emptyWorld [])
  = Ret (0, rootWorld).
Proof. vm_compute. reflexivity. Qed.

Lemma empty_tag_name_is_a_match_witness :
  (∃ n : nat, ∀ fuel, n ≤ fuel → ∃ w',
      findClosestTag fuel (hostedRepo [mkTag EmptyString "C0"] rootOnly)
        unnamedTags 0 rootWorld
      = Ret ({| tag := EmptyString; distance := 0 |}, w'))
  ∧ (distance {| tag := EmptyString; distance := 0 |} ≠ -1)%Z
  ∧ (0 = 0 →
     publish (ciEnv "C0")
       (version (ciEnv "C0") {| tag := EmptyString; distance := 0 |})
     = [SetOutput "version" EmptyString;
        AppendFile "/github/env" "VERSION="]).
Proof.
  apply (empty_tag_name_is_a_match
           (hostedRepo [mkTag EmptyString "C0"] rootOnly) unnamedTags
           rootWorld 0 0 {| commits := setCommits ∅ rootOnly; page := 1 |}
           (mkCommit "C0" []) "C0" "C0" 0 (ciEnv "C0")).
  - reflexivity.
  - unfold cache_closed. apply (bool_decide_unpack _). vm_compute. reflexivity.
  - vm_compute. reflexivity.
  - reflexivity.
  - constructor.
  - vm_compute. reflexivity.
  - intros z n _ _. lia.
  - intros z Hp _. apply path_zero in Hp. subst z. vm_compute. reflexivity.
Defined.

(** ** Pagination *)

Lemma length_page_of {A} (l : list A) p :
  length (page_of l p) = Nat.min pageSize (length l - p * pageSize).
Proof. unfold page_of. rewrite length_take, length_drop. lia. Qed.

Lemma lt_div_pageSize n p : p < n / pageSize ↔ (p + 1) * pageSize ≤ n.
Proof.
  unfold pageSize.
  pose proof (Nat.div_mod_eq n 100). pose proof (Nat.mod_upper_bound n 100).
  lia.
Qed.

Lemma page_of_full {A} (l : list A) p :
  length (page_of l p) = pageSize ↔ p < length l / pageSize.
Proof.
  rewrite length_page_of, lt_div_pageSize. unfold pageSize. lia.
Qed.

Lemma page_of_short {A} (l : list A) p :
  length (page_of l p) < pageSize ↔ length l / pageSize ≤ p.
Proof.
  pose proof (page_of_full l p). rewrite length_page_of in *. lia.
Qed.

Lemma setTags_app result l k :
  setTags result (l ++ k) = setTags (setTags result l) k.
Proof. apply foldl_app. Qed.

Lemma getTags_loop_paged allTags history fuel :
  ∀ p,
    p ≤ length allTags / pageSize →
    length allTags / pageSize < p + fuel →
    getTags_loop fuel (pagedService allTags history) p
      (setTags ∅ (take (p * pageSize) allTags))
    = Ret (setTags ∅ allTags, length allTags / pageSize + 1).
Proof.
  induction fuel as [|fuel IH]; intros p Hp Hfuel; [lia|].
  cbn [getTags_loop pagedService listTags]. rewrite <- setTags_app.
  change (take (p * pageSize) allTags ++ page_of allTags p)
    with (take (p * pageSize) allTags
          ++ take pageSize (drop (p * pageSize) allTags)).
  rewrite take_take_drop.
  destruct (decide (length (page_of allTags p) = pageSize)) as [Hfull|Hshort].
  - apply page_of_full in Hfull.
    replace (p * pageSize + pageSize) with ((p + 1) * pageSize) by lia.
    apply IH; lia.
  - rewrite page_of_full in Hshort.
    assert (p = length allTags / pageSize) as Hlast by lia.
    rewrite take_ge; [by rewrite Hlast|].
    pose proof (lt_div_pageSize (length allTags) p). lia.
Qed.

Lemma getTags_loop_paged_all allTags history fuel :
  length allTags / pageSize < fuel →
  getTags_loop fuel (pagedService allTags history) 0 ∅
  = Ret (setTags ∅ allTags, length allTags / pageSize + 1).
Proof.
  intros Hfuel. apply (getTags_loop_paged allTags history fuel 0); lia.
Qed.

Lemma provider_loop_paged allTags history hash fuel :
  ∀ ps,
    0 < fuel →
    length (history hash) / pageSize < page ps + fuel →
    ∃ ps',
      provider_loop fuel (pagedService allTags history) hash ps = Ret ps'
      ∧ page ps' ≤ Nat.max (page ps) (length (history hash) / pageSize) + 1.
Proof.
  induction fuel as [|fuel IH]; intros ps Hpos Hfuel; [lia|].
  cbn [provider_loop pagedService listCommits].
  destruct (decide (is_Some (commits ps !! hash))).
  { exists ps. split; [done|lia]. }
  destruct (decide (length (page_of (history hash) (page ps)) < pageSize))
    as [Hshort|Hfull].
  - eexists. split; [done|]. cbn [page provider_store]. lia.
  - rewrite page_of_short in Hfull.
    destruct (IH (provider_store (page_of (history hash) (page ps)) ps))
      as (ps' & Hps' & Hpage); [lia|cbn [page provider_store]; lia|].
    exists ps'. split; [done|]. cbn [page provider_store] in Hpage. lia.
Qed.

(** ** Concurrent provider calls *)

Lemma pending_from_elem tasks :
  ∀ j i hash q,
    (i, hash, q) ∈ pending_from j tasks →
    j ≤ i ∧ tasks !! (i - j) = Some (Pending hash q).
Proof.
  induction tasks as [|t tasks IH]; intros j i hash q Hin; [inversion Hin|].
  destruct t as [c|h' q']; simpl in Hin.
  - apply IH in Hin as [Hle Hl]. split; [lia|].
    by replace (i - j) with (S (i - S j)) by lia.
  - apply elem_of_cons in Hin as [Heq|Hin].
    + simplify_eq. split; [done|]. by rewrite Nat.sub_diag.
    + apply IH in Hin as [Hle Hl]. split; [lia|].
      by replace (i - j) with (S (i - S j)) by lia.
Qed.

Lemma pending_from_nil tasks j :
  pending_from j tasks = [] → ∃ cs, tasks = map Resolved cs.
Proof.
  revert j. induction tasks as [|[c|h q] tasks IH]; intros j H.
  - by exists [].
  - destruct (IH _ H) as [cs ->]. by exists (c :: cs).
  - discriminate H.
Qed.

Lemma nth_head_elem {A} (k : nat) (a : A) (l : list A) :
  nth k (a :: l) a ∈ a :: l.
Proof.
  destruct (decide (k < length (a :: l))) as [Hk|Hk].
  - apply list_elem_of_In. by apply nth_In.
  - rewrite nth_overflow by lia. by left.
Qed.

(** The request picked for delivery is one in flight. *)
Lemma picked_pending tasks first waiting k i hash q :
  pending_from 0 tasks = first :: waiting →
  nth k (first :: waiting) first = (i, hash, q) →
  tasks !! i = Some (Pending hash q).
Proof.
  intros Hw Hn. pose proof (nth_head_elem k first waiting) as Hin.
  rewrite Hn, <- Hw in Hin. apply pending_from_elem in Hin as [_ Hl].
  by rewrite Nat.sub_0_r in Hl.
Qed.

Lemma provider_enter_cases hash ps :
  (∃ c, commits ps !! hash = Some c
        ∧ provider_enter hash ps = Ret (Resolved c))
  ∨ (commits ps !! hash = None
     ∧ provider_enter hash ps = Ret (Pending hash (page ps))).
Proof.
  unfold provider_enter, provider_finish.
  destruct (commits ps !! hash) as [c|] eqn:Hc.
  - left. exists c. split; [done|]. by rewrite decide_True.
  - right. split; [done|]. rewrite decide_False; [done|]. by intros [? ?].
Qed.

Lemma mapM_provider_enter hashes ps :
  ∃ tasks,
    mapM (λ it, provider_enter it ps) hashes = Ret tasks
    ∧ Forall2 (λ h t, provider_enter h ps = Ret t) hashes tasks.
Proof.
  induction hashes as [|h hashes (tasks & Hm & Hf)].
  - exists []. split; [done|constructor].
  - destruct (provider_enter_cases h ps) as [(c & _ & He)|[_ He]].
    + exists (Resolved c :: tasks). split; [|by constructor].
      simpl. rewrite He. simpl. by rewrite Hm.
    + exists (Pending h (page ps) :: tasks). split; [|by constructor].
      simpl. rewrite He. simpl. by rewrite Hm.
Qed.

(** A single provider call awaited through [Promise.all] is the provider
    loop: the two readings of lines 105-128 agree. *)
Lemma promiseAll_single fuel octokit hash :
  ∀ ps net,
    (λ '(cs, ps', _), (cs, ps')) <$> promiseAll fuel octokit [hash] ps net
    = (λ '(c, ps'), ([c], ps')) <$> provider fuel octokit hash ps.
Proof.
  induction fuel as [|fuel IH]; intros ps net; unfold promiseAll, provider.
  - destruct (provider_enter_cases hash ps) as [(c & Hc & He)|[Hc He]].
    + cbn. rewrite He. cbn. rewrite decide_True by (by rewrite Hc).
      cbn. unfold provider_finish. by rewrite Hc.
    + cbn. rewrite He. cbn. rewrite decide_False; [done|].
      rewrite Hc. by intros [? ?].
  - destruct (provider_enter_cases hash ps) as [(c & Hc & He)|[Hc He]].
    + cbn. rewrite He. cbn. rewrite decide_True by (by rewrite Hc).
      cbn. unfold provider_finish. by rewrite Hc.
    + cbn [mapM]. rewrite He.
      cbn [mbind outcome_bind mret outcome_ret settle pending_from length
           provider_loop].
      rewrite decide_False by (rewrite Hc; by intros [? ?]).
      assert (Hpick : ∀ k, nth k [(0, hash, page ps)] (0, hash, page ps)
                           = (0, hash, page ps)).
      { by intros [|[|k]]. }
      destruct (nextArrival net 1) as [k net1]. rewrite Hpick.
      unfold provider_resume.
      destruct (listCommits octokit hash (page ps)) as [raw|e]; [|done].
      destruct (decide (length raw < pageSize)); cbn.
      * destruct (provider_finish hash (provider_store raw ps)) as [c| |];
          cbn; try done.
        by rewrite settle_done.
      * specialize (IH (provider_store raw ps) net1).
        unfold promiseAll, provider in IH. cbn in IH.
        destruct (provider_enter hash (provider_store raw ps)) as [t| |];
          cbn in IH |- *; try done.
Qed.

Lemma due_insert history tasks :
  ∀ i old new,
    tasks !! i = Some old →
    due history (<[i := new]> tasks) + owed history old
    = due history tasks + owed history new.
Proof.
  induction tasks as [|t tasks IH]; intros [|i] old new Hl; try done.
  - simpl in *. simplify_eq. lia.
  - simpl in *. specialize (IH i old new Hl). lia.
Qed.

Lemma due_zero history tasks j :
  due history tasks = 0 → pending_from j tasks = [].
Proof.
  revert j. induction tasks as [|[c|h q] tasks IH]; intros j H;
    simpl in *; [done|by apply IH|lia].
Qed.

(** Against a paging service every delivery lowers what the tasks still
    owe, whichever request the network answers first: [Promise.all] settles
    (or rejects) within [due] deliveries. *)
Lemma settle_paged_terminates allTags history fuel :
  ∀ tasks ps net,
    Forall (issued ps) tasks →
    due history tasks ≤ fuel →
    settle fuel (pagedService allTags history) tasks ps net ≠ Timeout.
Proof.
  induction fuel as [|fuel IH]; intros tasks ps net Hiss Hdue.
  - rewrite settle_done; [done|]. apply (due_zero history). lia.
  - cbn [settle].
    destruct (pending_from 0 tasks) as [|first waiting] eqn:Hw; [done|].
    destruct (nextArrival net (length (first :: waiting))) as [k net'].
    destruct (nth k (first :: waiting) first) as [[i hash] q] eqn:Hn.
    pose proof (picked_pending _ _ _ _ _ _ _ Hw Hn) as Hi.
    assert (Hq : q ≤ page ps).
    { rewrite Forall_forall in Hiss.
      apply (Hiss (Pending hash q)). by eapply list_elem_of_lookup_2. }
    unfold provider_resume. cbn [pagedService listCommits].
    set (raw := page_of (history hash) q).
    set (ps' := provider_store raw ps).
    assert (Hiss' : Forall (issued ps') tasks).
    { eapply Forall_impl; [exact Hiss|].
      intros [c|h' q'] Hx; [done|]. simpl in *. lia. }
    destruct (decide (length raw < pageSize)) as [Hshort|Hfull].
    + unfold provider_finish.
      destruct (commits ps' !! hash) as [c|]; [|done]. cbn.
      apply IH.
      * apply Forall_insert; [done|]. done.
      * pose proof (due_insert history tasks i _ (Resolved c) Hi) as Hd.
        simpl in Hd. lia.
    + assert (Hlt : q < length (history hash) / pageSize).
      { unfold raw in Hfull. rewrite page_of_short in Hfull. lia. }
      destruct (provider_enter_cases hash ps') as [(c & _ & He)|[_ He]];
        rewrite He.
      * apply IH.
        -- apply Forall_insert; [done|]. done.
        -- pose proof (due_insert history tasks i _ (Resolved c) Hi) as Hd.
           simpl in Hd. lia.
      * apply IH.
        -- apply Forall_insert; [done|]. simpl. lia.
        -- pose proof (due_insert history tasks i _
                         (Pending hash (page ps')) Hi) as Hd.
           change (page ps') with (page ps + 1) in *.
           cbn [owed] in Hd. lia.
Qed.

(** Which rejection surfaces depends on the arrival order: two provider
    calls started together for missing commits both fail, and [Promise.all]
    rejects with the error of the one answered first. *)
Lemma first_rejection_wins :
  observed (resolve 5 orphaned (ciEnv "M") (emptyWorld [0]))
  = Throw (ErrorObj (undefined_message "A" {| commits := ∅; page := 2 |}))
  ∧ observed (resolve 5 orphaned (ciEnv "M") (emptyWorld [1]))
    = Throw (ErrorObj (undefined_message "B" {| commits := ∅; page := 2 |})).
Proof. split; vm_compute; reflexivity. Qed.

(** ** The order of the parents *)

Lemma keyed_setCommits m rawCommits :
  keyed m → keyed (setCommits m rawCommits).
Proof.
  revert m. induction rawCommits as [|c l IH]; intros m Hm; [done|].
  simpl. apply IH. by apply map_Forall_insert_2.
Qed.

Lemma keyed_provider_store rawCommits ps :
  keyed (commits ps) → keyed (commits (provider_store rawCommits ps)).
Proof. apply keyed_setCommits. Qed.









Lemma provider_loop_keyed fuel octokit hash :
  ∀ ps ps',
    keyed (commits ps) →
    provider_loop fuel octokit hash ps = Ret ps' →
    keyed (commits ps').
Proof.
  induction fuel as [|fuel IH]; intros ps ps' Hk H; cbn in H.
  - destruct (decide (is_Some (commits ps !! hash))); by simplify_eq.
  - destruct (decide (is_Some (commits ps !! hash))); [by simplify_eq|].
    destruct (listCommits octokit hash (page ps)) as [raw|e]; [|done].
    pose proof (keyed_provider_store raw ps Hk) as Hk'.
    destruct (decide (length raw < pageSize)); [by simplify_eq|].
    by eapply IH.
Qed.

(** [getHistory] adds a provider whose cache is keyed by identifier. *)
Lemma getHistory_well_keyed fuel octokit sha w history w' :
  well_keyed w →
  getHistory fuel octokit sha w = Ret (history, w') →
  well_keyed w'.
Proof.
  intros Hw H. unfold getHistory, provider in H.
  destruct (provider_loop fuel octokit sha {| commits := ∅; page := 0 |})
    as [ps| |] eqn:Hloop; cbn in H; try done.
  destruct (provider_finish sha ps) as [c| |]; cbn in H; try done.
  simplify_eq. unfold well_keyed. cbn.
  apply Forall_app. split; [done|]. constructor; [|constructor].
  eapply provider_loop_keyed; [|exact Hloop]. apply map_Forall_empty.
Qed.


Lemma scatteredWorld_from_getHistory :
  getHistory 1 scattered "M" (emptyWorld [1]) = Ret (0, scatteredWorld).
Proof. vm_compute. reflexivity. Qed.


(** ** Termination of the pagination loops *)

Lemma initial_tasks_due history hashes ps tasks :
  Forall2 (λ h t, provider_enter h ps = Ret t) hashes tasks →
  due history tasks ≤ budget history hashes ∧ Forall (issued ps) tasks.
Proof.
  unfold budget.
  induction 1 as [|h t hashes tasks Ht _ [IH1 IH2]]; [by split|].
  destruct (provider_enter_cases h ps) as [(c & _ & He)|[_ He]];
    rewrite He in Ht; simplify_eq; cbn -[Nat.div] in *.
  - split; [lia|by constructor].
  - split; [lia|]. constructor; [simpl; lia|done].
Qed.

(** C5: a service that pages finite listings.  [getTags] makes one request
    per full page and one more, which returns fewer than [pageSize] items
    (none when the count is a multiple of [pageSize]), and returns the index
    of all tags.  The loop of a provider call that runs alone ends after at
    most that many requests from whatever page the counter stands at; and
    the provider calls started together by [parents()] all end within
    [budget] deliveries in every arrival order. *)
Theorem pagination_terminates allTags history :
  (∀ fuel,
     length allTags / pageSize < fuel →
     getTags_loop fuel (pagedService allTags history) 0 ∅
     = Ret (setTags ∅ allTags, length allTags / pageSize + 1)
     ∧ length (page_of allTags (length allTags / pageSize)) < pageSize)
  ∧ (∀ hash ps fuel,
       0 < fuel →
       length (history hash) / pageSize < page ps + fuel →
       ∃ ps',
         provider_loop fuel (pagedService allTags history) hash ps = Ret ps'
         ∧ page ps'
           ≤ Nat.max (page ps) (length (history hash) / pageSize) + 1)
  ∧ (∀ hashes ps net fuel,
       budget history hashes ≤ fuel →
       promiseAll fuel (pagedService allTags history) hashes ps net
       ≠ Timeout).
Proof.
  split; [|split].
  - intros fuel Hfuel. split.
    + by apply getTags_loop_paged_all.
    + by apply page_of_short.
  - intros hash ps fuel. apply provider_loop_paged.
  - intros hashes ps net fuel Hfuel. unfold promiseAll.
    destruct (mapM_provider_enter hashes ps) as (tasks & Hm & Hf).
    rewrite Hm. cbn.
    destruct (initial_tasks_due history hashes ps tasks Hf) as [Hdue Hiss].
    apply settle_paged_terminates; [done|lia].
Qed.

Lemma pagination_terminates_witness :
  (getTags_loop 3 (pagedService twoFullPages (λ _, chain 99)) 0 ∅
   = Ret (setTags ∅ twoFullPages, 3)
   ∧ length (page_of twoFullPages 2) < pageSize)
  ∧ (∃ ps',
       provider_loop 2 (pagedService twoFullPages (λ _, chain 99)) "zz"
         {| commits := ∅; page := 0 |} = Ret ps'
       ∧ page ps' ≤ 2)
  ∧ promiseAll 4 (pagedService twoFullPages (λ _, chain 99)) ["zz"; "c99"]
      {| commits := ∅; page := 0 |} [1] ≠ Timeout.
Proof.
  destruct (pagination_terminates twoFullPages (λ _, chain 99))
    as (Htags & Hloop & Hall).
  split; [|split].
  - apply (Htags 3). vm_compute. lia.
  - apply (Hloop "zz" {| commits := ∅; page := 0 |} 2); vm_compute; lia.
  - apply (Hall ["zz"; "c99"] {| commits := ∅; page := 0 |} [1] 4).
    vm_compute. lia.
Defined.

(** ** Independence of what the store held before *)

Section Relocation.
Variable octokit : Octokit.
Variable tags : gmap string string.
Variable H : list LazyGitCommit.
Variable P : list ProviderState.






End Relocation.






(** ** The three stages on a history that fits one page *)

Lemma page_of_whole {A} (l : list A) :
  length l < pageSize → page_of l 0 = l.
Proof. intros H. unfold page_of. cbn [Nat.mul drop]. apply take_ge. lia. Qed.

Lemma setCommits_lookup_Some l :
  ∀ m x c,
    setCommits m l !! x = Some c →
    m !! x = Some c ∨ (c ∈ l ∧ c_sha c = x).
Proof.
  induction l as [|a l IH]; intros m x c H; [by left|].
  cbn in H. apply IH in H as [H|[H1 H2]].
  - apply lookup_insert_Some in H as [[<- <-]|[_ H]].
    + right. split; [by left|done].
    + by left.
  - right. split; [by right|done].
Qed.

Lemma setCommits_lookup_is_Some l :
  ∀ m x,
    is_Some (m !! x) ∨ x ∈ map c_sha l → is_Some (setCommits m l !! x).
Proof.
  induction l as [|a l IH]; intros m x H.
  - destruct H as [H|H]; [done|inversion H].
  - cbn. apply IH. destruct H as [H|H].
    + left. rewrite lookup_insert_is_Some.
      destruct (decide (c_sha a = x)); [by left|by right].
    + cbn in H. apply elem_of_cons in H as [->|H]; [|by right].
      left. rewrite lookup_insert_is_Some. by left.
Qed.

Lemma setCommits_closed l :
  listing_closed l → cache_closed (setCommits ∅ l).
Proof.
  intros Hl x c Hc.
  apply setCommits_lookup_Some in Hc as [Hc|[Hc Hx]]; [done|].
  split; [done|].
  eapply Forall_impl; [exact (Hl c Hc)|].
  intros p Hp. apply setCommits_lookup_is_Some. by right.
Qed.

(** A history of fewer than [pageSize] commits is loaded by the single
    request [getHistory] makes. *)
Lemma getHistory_small allTags history sha w :
  length (history sha) < pageSize →
  sha ∈ map c_sha (history sha) →
  ∃ c,
    setCommits ∅ (history sha) !! sha = Some c
    ∧ ∀ fuel, 0 < fuel →
        getHistory fuel (pagedService allTags history) sha w
        = Ret (length (heap w),
               {| heap := heap w ++ [newLazyGitCommit c
                                       (length (providers w))];
                  providers :=
                    providers w ++ [{| commits := setCommits ∅ (history sha);
                                       page := 1 |}];
                  network := network w |}).
Proof.
  intros Hlen Hin.
  destruct (setCommits_lookup_is_Some (history sha) ∅ sha) as [c Hc];
    [by right|].
  exists c. split; [done|]. intros [|fuel] Hfuel; [lia|].
  unfold getHistory, provider. cbn [provider_loop commits page].
  rewrite decide_False by (rewrite lookup_empty; by intros [? ?]).
  cbn [pagedService listCommits]. rewrite page_of_whole by done.
  rewrite decide_True by done.
  cbn. unfold provider_finish. cbn. by rewrite Hc.
Qed.

(** X20: the whole resolution on a repository whose history fits one page:
    the tags are those of the listing, and the nearest tagged commit is
    found at its distance. *)
Lemma resolve_small_repository allTags history env w y d :
  length (history (GITHUB_SHA env)) < pageSize →
  GITHUB_SHA env ∈ map c_sha (history (GITHUB_SHA env)) →
  listing_closed (history (GITHUB_SHA env)) →
  path (setCommits ∅ (history (GITHUB_SHA env))) (GITHUB_SHA env) y d →
  is_Some (setTags ∅ allTags !! y) →
  (∀ z n,
     path (setCommits ∅ (history (GITHUB_SHA env))) (GITHUB_SHA env) z n →
     is_Some (setTags ∅ allTags !! z) → d ≤ n) →
  ∃ t z (n : nat),
    path (setCommits ∅ (history (GITHUB_SHA env))) (GITHUB_SHA env) z d
    ∧ setTags ∅ allTags !! z = Some t
    ∧ ∀ fuel, n ≤ fuel →
        observed (resolve fuel (pagedService allTags history) env w)
        = Ret {| tag := t; distance := Z.of_nat d |}.
Proof.
  intros Hlen Hin Hclosed Hpath Htag Hmin.
  set (start := GITHUB_SHA env) in *.
  set (m := setCommits ∅ (history start)) in *.
  destruct (getHistory_small allTags history start w Hlen Hin)
    as (c & Hc & Hhist).
  destruct (nearest_level _ m start y d Hpath Htag Hmin)
    as (Hlow & pre & z & t & post & Hlev & Hpre & Hz & Hzpath).
  set (w0 := {| heap := heap w ++ [newLazyGitCommit c (length (providers w))];
                providers := providers w
                             ++ [{| commits := m; page := 1 |}];
                network := network w |}).
  destruct (search_by_levels (pagedService allTags history)
              (setTags ∅ allTags) w0 (length (heap w)) (length (providers w))
              {| commits := m; page := 1 |} c start d pre z post t)
    as (n & Hn); try done.
  { cbn. rewrite lookup_app_r by lia. by rewrite Nat.sub_diag. }
  { by apply setCommits_closed. }
  { cbn. rewrite lookup_app_r by lia. by rewrite Nat.sub_diag. }
  exists t, z, (n + S (length allTags / pageSize)).
  repeat split; try done. intros fuel Hfuel.
  unfold observed, resolve, getTags.
  rewrite getTags_loop_paged_all by lia.
  cbn. fold start. rewrite Hhist by lia. cbn. fold m w0.
  destruct (Hn fuel) as [w' Hw']; [lia|]. by rewrite Hw'.
Qed.

(** ** The first call of a provider *)

Lemma setCommits_app m l k :
  setCommits m (l ++ k) = setCommits (setCommits m l) k.
Proof. apply foldl_app. Qed.

Lemma provider_loop_from_start allTags history hash fuel :
  ∀ p,
    p ≤ length (history hash) / pageSize →
    length (history hash) / pageSize < p + fuel →
    ∃ ps',
      provider_loop fuel (pagedService allTags history) hash
        {| commits := setCommits ∅ (take (p * pageSize) (history hash));
           page := p |} = Ret ps'
      ∧ (is_Some (commits ps' !! hash)
         ∨ commits ps' = setCommits ∅ (history hash)).
Proof.
  induction fuel as [|fuel IH]; intros p Hp Hfuel; [lia|].
  cbn [provider_loop pagedService listCommits commits page].
  destruct (decide (is_Some (setCommits ∅ (take (p * pageSize) (history hash))
                             !! hash))) as [Hhit|Hmiss].
  { eexists. split; [done|]. by left. }
  assert (Hnext : provider_store (page_of (history hash) p)
                    {| commits := setCommits ∅ (take (p * pageSize)
                                                    (history hash));
                       page := p |}
                  = {| commits := setCommits ∅ (take ((p + 1) * pageSize)
                                                     (history hash));
                       page := p + 1 |}).
  { unfold provider_store. cbn [commits page]. f_equal.
    rewrite <- setCommits_app. unfold page_of. rewrite take_take_drop.
    f_equal. f_equal. lia. }
  rewrite Hnext.
  destruct (decide (length (page_of (history hash) p) < pageSize))
    as [Hshort|Hfull].
  - eexists. split; [done|]. right. cbn [commits].
    rewrite page_of_short in Hshort.
    rewrite take_ge; [done|].
    pose proof (lt_div_pageSize (length (history hash)) p). lia.
  - rewrite page_of_short in Hfull. apply IH; lia.
Qed.

(** A provider that has made no request yet finds every identifier its
    listing surfaces: the miss of the later calls comes from the page counter
    they inherit. *)
Lemma provider_first_call allTags history hash fuel :
  hash ∈ map c_sha (history hash) →
  length (history hash) / pageSize < fuel →
  ∃ c ps',
    provider fuel (pagedService allTags history) hash
      {| commits := ∅; page := 0 |} = Ret (c, ps')
    ∧ c_sha c = hash.
Proof.
  intros Hin Hfuel.
  destruct (provider_loop_from_start allTags history hash fuel 0)
    as (ps' & Hloop & Hfound); [lia|lia|].
  change (setCommits ∅ (take (0 * pageSize) (history hash)))
    with (∅ : gmap string Commit) in Hloop.
  assert (Hsome : is_Some (commits ps' !! hash)).
  { destruct Hfound as [?|Hall]; [done|]. rewrite Hall.
    apply setCommits_lookup_is_Some. by right. }
  destruct Hsome as [c Hc]. exists c, ps'.
  unfold provider. rewrite Hloop. cbn. unfold provider_finish. rewrite Hc.
  split; [done|].
  assert (Hk : keyed (commits ps')).
  { eapply provider_loop_keyed; [|exact Hloop]. apply map_Forall_empty. }
  by apply (Hk _ _ Hc).
Qed.

(** * Further properties of the code *)

(** ** [getTags] against any service *)

(** Full pages are read one after the other. *)
Lemma getTags_loop_full_pages octokit (pages : list (list Tag)) :
  ∀ p result fuel,
    (∀ i tags, pages !! i = Some tags →
               listTags octokit (p + i) = Data tags
               ∧ length tags = pageSize) →
    getTags_loop (length pages + fuel) octokit p result
    = getTags_loop fuel octokit (p + length pages)
        (setTags result (concat pages)).
Proof.
  induction pages as [|tags pages IH]; intros p result fuel Hpages.
  - cbn. by rewrite Nat.add_0_r.
  - destruct (Hpages 0 tags eq_refl) as [Hdata Hlen].
    rewrite Nat.add_0_r in Hdata.
    cbn [length Nat.add getTags_loop]. rewrite Hdata.
    rewrite decide_True by done.
    rewrite IH.
    + cbn [concat]. rewrite setTags_app.
      by replace (p + 1 + length pages) with (p + S (length pages)) by lia.
    + intros i tags' Hi.
      replace (p + 1 + i) with (p + S i) by lia. by apply Hpages.
Qed.

(** X1: [getTags] reads pages until one does not hold exactly [pageSize]
    tags: after the full pages [pages] and the page [final] (shorter, empty
    or longer) it has made one request per page and returns the tags of all
    of them, inserted in listing order. *)
Theorem getTags_stops_at_first_partial_page octokit pages final fuel :
  (∀ i tags, pages !! i = Some tags →
             listTags octokit i = Data tags ∧ length tags = pageSize) →
  listTags octokit (length pages) = Data final →
  length final ≠ pageSize →
  length pages < fuel →
  getTags_loop fuel octokit 0 ∅
  = Ret (setTags ∅ (concat pages ++ final), length pages + 1).
Proof.
  intros Hpages Hfinal Hlen Hfuel.
  replace fuel with (length pages + S (fuel - S (length pages))) by lia.
  rewrite getTags_loop_full_pages by done.
  cbn [getTags_loop Nat.add]. rewrite Hfinal.
  rewrite decide_False by done. by rewrite setTags_app.
Qed.

Lemma getTags_stops_at_first_partial_page_witness :
  getTags_loop 2 (pagedService (replicate 100 (mkTag "v1.0.0" "c0"))
                    (λ _, [])) 0 ∅
  = Ret (setTags ∅ (replicate 100 (mkTag "v1.0.0" "c0")), 2).
Proof.
  apply (getTags_stops_at_first_partial_page
           (pagedService (replicate 100 (mkTag "v1.0.0" "c0")) (λ _, []))
           [replicate 100 (mkTag "v1.0.0" "c0")] [] 2).
  - intros [|i] tags Hi; [|by destruct i].
    injection Hi as <-. split; reflexivity.
  - reflexivity.
  - vm_compute. discriminate.
  - simpl. lia.
Defined.

(** X2: a request that is rejected after full pages ends [getTags] with the
    thrown value, whatever was read before: nothing is returned and nothing
    is retried. *)
Theorem getTags_rejected_page_throws octokit pages e fuel :
  (∀ i tags, pages !! i = Some tags →
             listTags octokit i = Data tags ∧ length tags = pageSize) →
  listTags octokit (length pages) = Reject e →
  length pages < fuel →
  getTags fuel octokit = Throw e.
Proof.
  intros Hpages Hreject Hfuel. unfold getTags.
  replace fuel with (length pages + S (fuel - S (length pages))) by lia.
  rewrite getTags_loop_full_pages by done.
  cbn [getTags_loop Nat.add]. by rewrite Hreject.
Qed.

Lemma getTags_rejected_page_throws_witness :
  getTags 2 failingSecondPage = Throw (ErrorObj "Bad credentials").
Proof.
  apply (getTags_rejected_page_throws failingSecondPage
           [replicate pageSize (mkTag "v1.0.0" "c0")]
           (ErrorObj "Bad credentials") 2).
  - intros [|i] tags Hi; [|by destruct i].
    injection Hi as <-. split; reflexivity.
  - reflexivity.
  - simpl. lia.
Defined.

(** X3: the loop has no bound of its own: against a service that answers
    every request with exactly [pageSize] tags, [getTags] returns for no
    amount of fuel. *)
Theorem getTags_endless_on_full_pages octokit :
  (∀ p, ∃ tags, listTags octokit p = Data tags ∧ length tags = pageSize) →
  ∀ fuel, getTags fuel octokit = Timeout.
Proof.
  intros Hfull fuel. unfold getTags.
  assert (H : ∀ p result, getTags_loop fuel octokit p result = Timeout).
  { induction fuel as [|fuel IH]; intros p result; [done|].
    destruct (Hfull p) as (tags & Hdata & Hlen).
    cbn [getTags_loop]. rewrite Hdata. rewrite decide_True by done.
    apply IH. }
  by rewrite H.
Qed.

Lemma getTags_endless_on_full_pages_witness :
  getTags 7 endlessTags = Timeout.
Proof.
  apply (getTags_endless_on_full_pages endlessTags).
  intros p. eexists. split; [reflexivity|]. apply length_replicate.
Defined.

(** The index after a run of insertions: the name of the last tag listed
    for the commit, or what the index held before. *)
Lemma setTags_lookup tags :
  ∀ result x,
    setTags result tags !! x
    = match last (filter (λ t, commit_sha t = x) tags) with
      | Some t => Some (name t)
      | None => result !! x
      end.
Proof.
  induction tags as [|t tags IH]; intros result x; [done|].
  cbn [setTags foldl]. fold (setTags (<[commit_sha t := name t]> result) tags).
  rewrite IH. rewrite filter_cons.
  destruct (decide (commit_sha t = x)) as [Heq|Hne].
  - destruct (filter (λ t0, commit_sha t0 = x) tags) as [|t' l'] eqn:Hf.
    + cbn. rewrite <- Heq. by rewrite lookup_insert_eq.
    + change (last (t :: t' :: l')) with (last (t' :: l')).
      destruct (last (t' :: l')) eqn:Hl; [done|].
      by apply last_None in Hl.
  - destruct (last (filter (λ t0, commit_sha t0 = x) tags)); [done|].
    by rewrite lookup_insert_ne.
Qed.

(** X4: when several tags point at one commit, the tag index keeps the name
    of the one listed last; a commit without tag is absent from the
    index. *)
Theorem getTags_last_listed_tag_wins allTags history fuel x :
  length allTags / pageSize < fuel →
  ∃ index,
    getTags fuel (pagedService allTags history) = Ret index
    ∧ index !! x = name <$> last (filter (λ t, commit_sha t = x) allTags).
Proof.
  intros Hfuel. exists (setTags ∅ allTags). split.
  - unfold getTags. by rewrite getTags_loop_paged_all.
  - rewrite setTags_lookup.
    by destruct (last (filter (λ t, commit_sha t = x) allTags)).
Qed.

Lemma getTags_last_listed_tag_wins_witness :
  ∃ index,
    getTags 1 (pagedService retagged (λ _, [])) = Ret index
    ∧ index !! "C0" = Some "latest".
Proof.
  apply (getTags_last_listed_tag_wins retagged (λ _, []) 1 "C0").
  vm_compute. lia.
Defined.

(** ** The provider against any page counter *)

Lemma setCommits_lookup_None l m x :
  m !! x = None → x ∉ map c_sha l → setCommits m l !! x = None.
Proof.
  intros Hm Hx. destruct (setCommits m l !! x) as [c|] eqn:Hc; [|done].
  apply setCommits_lookup_Some in Hc as [Hc|[Hc <-]]; [congruence|].
  destruct Hx. apply list_elem_of_fmap. by exists c.
Qed.

Lemma undefined_message_page hash ps ps' :
  page ps = page ps' → undefined_message hash ps = undefined_message hash ps'.
Proof. intros H. unfold undefined_message, stringify. by rewrite H. Qed.

Lemma provider_loop_miss allTags history hash fuel :
  ∀ ps,
    commits ps !! hash = None →
    hash ∉ map c_sha (drop (page ps * pageSize) (history hash)) →
    0 < fuel →
    length (history hash) / pageSize < page ps + fuel →
    ∃ ps',
      provider_loop fuel (pagedService allTags history) hash ps = Ret ps'
      ∧ commits ps' !! hash = None
      ∧ page ps' = Nat.max (page ps) (length (history hash) / pageSize) + 1.
Proof.
  induction fuel as [|fuel IH]; intros ps Hmiss Hunlisted Hpos Hfuel; [lia|].
  cbn [provider_loop pagedService listCommits].
  rewrite decide_False by (rewrite Hmiss; by intros [? ?]).
  set (raw := page_of (history hash) (page ps)).
  assert (Hraw : hash ∉ map c_sha raw).
  { intros Hin. apply Hunlisted.
    apply list_elem_of_fmap in Hin as (c & -> & Hc).
    apply list_elem_of_fmap. exists c. split; [done|].
    unfold raw, page_of in Hc. by eapply subseteq_take. }
  assert (Hmiss' : commits (provider_store raw ps) !! hash = None).
  { by apply setCommits_lookup_None. }
  destruct (decide (length raw < pageSize)) as [Hshort|Hfull].
  - eexists. split; [done|]. split; [done|]. cbn [page provider_store].
    apply page_of_short in Hshort. lia.
  - unfold raw in Hfull. rewrite page_of_short in Hfull.
    destruct (IH (provider_store raw ps)) as (ps' & Hloop & Hnone & Hpage);
      [done| |lia|cbn [page provider_store]; lia|].
    + cbn [page provider_store]. intros Hin. apply Hunlisted.
      apply list_elem_of_fmap in Hin as (c & -> & Hc).
      apply list_elem_of_fmap. exists c. split; [done|].
      replace ((page ps + 1) * pageSize)
        with (page ps * pageSize + pageSize) in Hc by lia.
      rewrite <- drop_drop in Hc. by eapply subseteq_drop.
    + exists ps'. split; [done|]. split; [done|].
      cbn [page provider_store] in Hpage. lia.
Qed.

(** X5: a provider call for an identifier that is not cached and that the
    listing does not show on the pages from the current counter onward reads
    those pages to the short one and throws the cache-miss error, which
    names the identifier and the page counter reached.  Pages before the
    counter are never read, whether they hold the identifier or not. *)
Theorem provider_throws_on_unlisted allTags history hash ps fuel :
  commits ps !! hash = None →
  hash ∉ map c_sha (drop (page ps * pageSize) (history hash)) →
  0 < fuel →
  length (history hash) / pageSize < page ps + fuel →
  provider fuel (pagedService allTags history) hash ps
  = Throw (ErrorObj
             (undefined_message hash
                {| commits := ∅;
                   page := Nat.max (page ps)
                             (length (history hash) / pageSize) + 1 |})).
Proof.
  intros Hmiss Hunlisted Hpos Hfuel.
  destruct (provider_loop_miss allTags history hash fuel ps)
    as (ps' & Hloop & Hnone & Hpage); try done.
  unfold provider. rewrite Hloop. cbn. unfold provider_finish.
  rewrite Hnone. cbn. do 2 f_equal. by apply undefined_message_page.
Qed.

Lemma provider_throws_on_unlisted_witness :
  provider 1 singleCommit "c0" {| commits := ∅; page := 1 |}
  = Throw (ErrorObj (undefined_message "c0" {| commits := ∅; page := 2 |})).
Proof.
  apply (provider_throws_on_unlisted [] (λ _, [mkCommit "c0" []]) "c0"
           {| commits := ∅; page := 1 |} 1).
  - reflexivity.
  - vm_compute. intros H. inversion H.
  - lia.
  - vm_compute. lia.
Defined.

(** X6: the provider loop has no bound of its own either: while the pages
    are full and do not hold the identifier, it asks for the next one. *)
Theorem provider_endless_on_full_pages octokit hash :
  (∀ p, ∃ rawCommits,
     listCommits octokit hash p = Data rawCommits
     ∧ pageSize ≤ length rawCommits
     ∧ hash ∉ map c_sha rawCommits) →
  ∀ fuel ps,
    commits ps !! hash = None →
    provider fuel octokit hash ps = Timeout.
Proof.
  intros Hfull fuel. unfold provider.
  assert (H : ∀ ps, commits ps !! hash = None →
                    provider_loop fuel octokit hash ps = Timeout).
  { induction fuel as [|fuel IH]; intros ps Hmiss.
    - cbn. by rewrite decide_False by (rewrite Hmiss; by intros [? ?]).
    - destruct (Hfull (page ps)) as (raw & Hdata & Hlen & Hraw).
      cbn [provider_loop].
      rewrite decide_False by (rewrite Hmiss; by intros [? ?]).
      rewrite Hdata. rewrite decide_False by lia.
      apply IH. by apply setCommits_lookup_None. }
  intros ps Hmiss. by rewrite H.
Qed.

Lemma provider_endless_on_full_pages_witness :
  provider 7 endlessCommits "c0" {| commits := ∅; page := 0 |} = Timeout.
Proof.
  apply (provider_endless_on_full_pages endlessCommits "c0"); [|reflexivity].
  intros p. eexists. split; [reflexivity|]. split.
  - rewrite length_replicate. lia.
  - intros H. apply list_elem_of_fmap in H as (c & Hc & Hin).
    apply elem_of_replicate in Hin as [-> _]. discriminate Hc.
Defined.

(** ** What the cache keeps *)

Lemma cache_grows_refl ps : cache_grows ps ps.
Proof. by split. Qed.

Lemma cache_grows_trans ps1 ps2 ps3 :
  cache_grows ps1 ps2 → cache_grows ps2 ps3 → cache_grows ps1 ps3.
Proof. intros [H1 H2] [H3 H4]. split; [auto|lia]. Qed.

Lemma provider_store_grows rawCommits ps :
  cache_grows ps (provider_store rawCommits ps).
Proof.
  split; [|cbn; lia]. intros x Hx. cbn.
  apply setCommits_lookup_is_Some. by left.
Qed.

Lemma provider_loop_grows fuel octokit hash :
  ∀ ps ps',
    provider_loop fuel octokit hash ps = Ret ps' → cache_grows ps ps'.
Proof.
  induction fuel as [|fuel IH]; intros ps ps' H; cbn in H.
  - destruct (decide (is_Some (commits ps !! hash))); simplify_eq.
    apply cache_grows_refl.
  - destruct (decide (is_Some (commits ps !! hash)));
      [simplify_eq; apply cache_grows_refl|].
    destruct (listCommits octokit hash (page ps)) as [raw|e]; [|done].
    destruct (decide (length raw < pageSize)).
    + simplify_eq. apply provider_store_grows.
    + eapply cache_grows_trans; [apply provider_store_grows|by apply IH].
Qed.

(** X7: what a provider call returns is what the cache then holds for the
    identifier asked for; the call never drops an identifier from the cache
    and never lowers the page counter; and as long as commits are stored
    under their own identifier, the commit returned is the one asked for. *)
Theorem provider_returns_cached fuel octokit hash ps c ps' :
  provider fuel octokit hash ps = Ret (c, ps') →
  commits ps' !! hash = Some c
  ∧ cache_grows ps ps'
  ∧ (keyed (commits ps) → c_sha c = hash ∧ keyed (commits ps')).
Proof.
  unfold provider. intros H.
  destruct (provider_loop fuel octokit hash ps) as [ps1| |] eqn:Hloop;
    cbn in H; try done.
  unfold provider_finish in H.
  destruct (commits ps1 !! hash) as [c1|] eqn:Hc; cbn in H; simplify_eq.
  split; [done|]. split; [by eapply provider_loop_grows|].
  intros Hk. pose proof (provider_loop_keyed _ _ _ _ _ Hk Hloop) as Hk'.
  split; [|done]. by apply (Hk' _ _ Hc).
Qed.

Lemma provider_returns_cached_witness :
  ∃ c ps',
    provider 1 (pagedService [] (λ _, twoAhead)) "C1"
      {| commits := ∅; page := 0 |} = Ret (c, ps')
    ∧ commits ps' !! "C1" = Some c
    ∧ c_sha c = "C1".
Proof.
  eexists _, _. split; [vm_compute; reflexivity|].
  assert (Hrun : provider 1 (pagedService [] (λ _, twoAhead)) "C1"
                   {| commits := ∅; page := 0 |}
                 = Ret (mkCommit "C1" ["C0"],
                        provider_store twoAhead
                          {| commits := ∅; page := 0 |}))
    by (vm_compute; reflexivity).
  destruct (provider_returns_cached _ _ _ _ _ _ Hrun) as (Hc & _ & Hk).
  split; [exact Hc|].
  destruct Hk as [Hs _]; [apply map_Forall_empty|exact Hs].
Defined.

Lemma provider_resume_grows octokit hash q ps t ps' :
  provider_resume octokit hash q ps = (Ret t, ps') →
  cache_grows ps ps' ∧ settled_in ps' hash t.
Proof.
  unfold provider_resume. intros H.
  destruct (listCommits octokit hash q) as [raw|e]; [|by simplify_eq].
  destruct (decide (length raw < pageSize)); injection H as Ht <-;
    (split; [apply provider_store_grows|]).
  - unfold provider_finish in Ht.
    destruct (commits (provider_store raw ps) !! hash) as [c|] eqn:Hc;
      cbn in Ht; simplify_eq. unfold settled_in. by rewrite Hc.
  - destruct (provider_enter_cases hash (provider_store raw ps))
      as [(c & Hc & He)|[_ He]]; rewrite He in Ht; simplify_eq;
      unfold settled_in.
    + by rewrite Hc.
    + done.
Qed.

Lemma settle_grows octokit hashes fuel :
  ∀ tasks ps net cs ps' net',
    Forall2 (settled_in ps) hashes tasks →
    settle fuel octokit tasks ps net = Ret (cs, ps', net') →
    cache_grows ps ps' ∧ Forall (λ h, is_Some (commits ps' !! h)) hashes.
Proof.
  assert (Hdone : ∀ tasks (ps : ProviderState),
            Forall2 (settled_in ps) hashes tasks →
            pending_from 0 tasks = [] →
            Forall (λ h, is_Some (commits ps !! h)) hashes).
  { intros tasks ps Hf Hp. apply pending_from_nil in Hp as [cs0 ->].
    clear -Hf. revert hashes Hf.
    induction cs0 as [|c cs0 IH]; intros hashes Hf; simpl in *.
    - apply Forall2_nil_inv_r in Hf as ->. constructor.
    - apply Forall2_cons_inv_r in Hf as (h & hs & Hc & Hf & ->).
      constructor; [done|by apply IH]. }
  induction fuel as [|fuel IH]; intros tasks ps net cs ps' net' Hf H.
  - simpl in H. destruct (pending_from 0 tasks) eqn:Hp; [|done].
    simplify_eq. split; [apply cache_grows_refl|by eapply Hdone].
  - cbn [settle] in H.
    destruct (pending_from 0 tasks) as [|first waiting] eqn:Hw.
    { simplify_eq. split; [apply cache_grows_refl|by eapply Hdone]. }
    destruct (nextArrival net (length (first :: waiting))) as [k net1].
    destruct (nth k (first :: waiting) first) as [[i hash] q] eqn:Hn.
    pose proof (picked_pending _ _ _ _ _ _ _ Hw Hn) as Hi.
    destruct (provider_resume octokit hash q ps) as [[t| |] ps1] eqn:Hr;
      try done.
    destruct (provider_resume_grows _ _ _ _ _ _ Hr) as [Hg Ht].
    destruct (Forall2_lookup_r _ _ _ _ _ Hf Hi) as (h & Hh & Hfor).
    simpl in Hfor. subst hash.
    destruct (IH (<[i := t]> tasks) ps1 net1 cs ps' net') as [Hg' Hall];
      [|done|].
    + rewrite <- (list_insert_id hashes i h Hh).
      apply Forall2_insert; [|done].
      eapply Forall2_impl; [exact Hf|].
      intros h' [c|h'' q'] Hs; [|done]. cbn in *. by apply Hg.
    + split; [by eapply cache_grows_trans|done].
Qed.

(** X8: when [parents()] returns, the cache of the node's provider holds
    every parent identifier of the node next to everything it held before,
    its page counter has not gone back, and the other providers of the
    store are as they were, whatever the order of the responses. *)
Theorem parents_fills_cache fuel octokit this w refs w' :
  commitProvider (heap w !!! this) < length (providers w) →
  parents fuel octokit this w = Ret (refs, w') →
  cache_grows (providers w !!! commitProvider (heap w !!! this))
              (providers w' !!! commitProvider (heap w !!! this))
  ∧ Forall (λ h, is_Some (commits (providers w'
                                     !!! commitProvider (heap w !!! this))
                          !! h))
           (parentSha (heap w !!! this))
  ∧ ∀ cp, cp ≠ commitProvider (heap w !!! this) →
          providers w' !! cp = providers w !! cp.
Proof.
  intros Hcp. unfold parents.
  set (cp := commitProvider (heap w !!! this)) in *.
  destruct (promiseAll fuel octokit (parentSha (heap w !!! this))
              (providers w !!! cp) (network w))
    as [[[cs ps] net]| |] eqn:Hall; cbn; try done.
  intros Heq. simplify_eq. cbn [providers].
  rewrite list_lookup_total_insert_eq by done.
  unfold promiseAll in Hall.
  destruct (mapM_provider_enter (parentSha (heap w !!! this))
              (providers w !!! cp)) as (tasks & Hm & Hf).
  rewrite Hm in Hall. cbn in Hall.
  assert (Hinit : Forall2 (settled_in (providers w !!! cp))
                    (parentSha (heap w !!! this)) tasks).
  { eapply Forall2_impl; [exact Hf|]. intros h t Ht. cbn beta in Ht.
    destruct (provider_enter_cases h (providers w !!! cp))
      as [(c & Hc & He)|[_ He]]; rewrite He in Ht; simplify_eq;
      unfold settled_in; [by rewrite Hc|done]. }
  destruct (settle_grows _ _ _ _ _ _ _ _ _ Hinit Hall) as [Hg Hcached].
  split; [done|]. split; [done|].
  intros cp' Hne. by rewrite list_lookup_insert_ne.
Qed.

Lemma parents_fills_cache_witness :
  ∃ refs w',
    parents 2 scattered 0 (markVisited 0 scatteredWorld) = Ret (refs, w')
    ∧ Forall (λ h, is_Some (commits (providers w' !!! 0) !! h)) ["A"; "B"].
Proof.
  eexists _, _. split; [vm_compute; reflexivity|].
  refine (proj1 (proj2 (parents_fills_cache 2 scattered 0
                          (markVisited 0 scatteredWorld) _ _ _ _))).
  - vm_compute. lia.
  - vm_compute. reflexivity.
Defined.

(** X9: whatever the service answers, a history that [getHistory] returns
    is a new, unmarked object carrying the identifier asked for, next to a
    new provider state whose cache holds that commit; the objects, provider
    states and network of the store are left as they were. *)
Theorem getHistory_allocates fuel octokit start w history w' :
  getHistory fuel octokit start w = Ret (history, w') →
  history = length (heap w)
  ∧ ∃ node ps,
      heap w' = heap w ++ [node]
      ∧ providers w' = providers w ++ [ps]
      ∧ network w' = network w
      ∧ sha node = start
      ∧ visited node = false
      ∧ commitProvider node = length (providers w)
      ∧ commits ps !! start
        = Some {| c_sha := start; c_parents := parentSha node |}.
Proof.
  unfold getHistory. intros H.
  destruct (provider fuel octokit start {| commits := ∅; page := 0 |})
    as [[c ps]| |] eqn:Hp; cbn in H; try done.
  simplify_eq. split; [done|].
  unfold provider in Hp.
  destruct (provider_loop fuel octokit start {| commits := ∅; page := 0 |})
    as [ps1| |] eqn:Hloop; cbn in Hp; try done.
  unfold provider_finish in Hp.
  destruct (commits ps1 !! start) as [c1|] eqn:Hc; cbn in Hp; simplify_eq.
  assert (Hk : keyed (commits ps)).
  { eapply provider_loop_keyed; [|exact Hloop]. apply map_Forall_empty. }
  pose proof (Hk _ _ Hc) as Hsha. cbn in Hsha.
  exists (newLazyGitCommit c (length (providers w))), ps.
  repeat split; try done.
  rewrite Hc. destruct c as [s ps0]. cbn in *. by subst.
Qed.

Lemma getHistory_allocates_witness :
  ∃ node ps,
    heap shortcutWorld = heap (emptyWorld []) ++ [node]
    ∧ providers shortcutWorld = providers (emptyWorld []) ++ [ps]
    ∧ sha node = "S"
    ∧ visited node = false.
Proof.
  destruct (getHistory_allocates 1
              (hostedRepo [mkTag "v1.0.0" "T"] shortcut) "S" (emptyWorld [])
              0 shortcutWorld)
    as (_ & node & ps & Hheap & Hprov & _ & Hsha & Hv & _).
  - vm_compute. reflexivity.
  - exists node, ps. by repeat split.
Defined.

(** ** The search *)

Lemma findClosestTag_returns_match_witness :
  (0 ≤ 1)%Z ∧ ∃ x, shortcutTags !! x = Some "v1.0.0".
Proof.
  eapply (findClosestTag_returns_match 5
            (hostedRepo [mkTag "v1.0.0" "T"] shortcut) shortcutTags 0
            shortcutWorld {| tag := "v1.0.0"; distance := 1 |}).
  vm_compute. reflexivity.
Defined.

Lemma findClosestTag_unguarded_witness :
  findClosestTag 5 (hostedRepo [mkTag "v1.0.0" "T"] shortcut) shortcutTags 0
    shortcutWorld
  = findClosestTag_loop_unguarded 5
      (hostedRepo [mkTag "v1.0.0" "T"] shortcut) shortcutTags
      [Some 0; None] 0 shortcutWorld.
Proof.
  apply (findClosestTag_unguarded 5 1
           (hostedRepo [mkTag "v1.0.0" "T"] shortcut) shortcutTags "S"
           (emptyWorld []) 0 shortcutWorld).
  vm_compute. reflexivity.
Defined.

Lemma findClosestTag_without_tag_diverges_witness :
  findClosestTag 7 (hostedRepo [] rootOnly) ∅ 0 rootWorld = Timeout.
Proof.
  apply (findClosestTag_without_tag_diverges (hostedRepo [] rootOnly) ∅
           rootWorld 0 0 {| commits := setCommits ∅ rootOnly; page := 1 |}
           (mkCommit "C0" []) "C0").
  - reflexivity.
  - unfold cache_closed. apply (bool_decide_unpack _). vm_compute. reflexivity.
  - vm_compute. reflexivity.
  - reflexivity.
  - intros x _. apply lookup_empty.
Defined.

(** X13: among several tagged commits at the nearest depth the search
    returns the tag of the one that comes first when the levels are built by
    expanding every commit's parents in the order they are listed; the
    names of the tags play no part. *)
Theorem findClosestTag_first_in_enqueue_order octokit tags w history cp ps
    rawCommit start d i z t :
  providers w !! cp = Some ps →
  cache_closed (commits ps) →
  commits ps !! start = Some rawCommit →
  heap w !! history = Some (newLazyGitCommit rawCommit cp) →
  (∀ k, k < d →
        Forall (λ x, tags !! x = None) (levelFrom (commits ps) [start] k)) →
  list_find (λ x, is_Some (tags !! x)) (levelFrom (commits ps) [start] d)
  = Some (i, z) →
  tags !! z = Some t →
  ∃ n : nat, ∀ fuel, n ≤ fuel → ∃ w',
    findClosestTag fuel octokit tags history w
    = Ret ({| tag := t; distance := Z.of_nat d |}, w').
Proof.
  intros Hps Hclosed Hstart Hnode Hlow Hfind Hz.
  apply list_find_Some in Hfind as (Hi & _ & Hbefore).
  eapply (search_by_levels octokit tags w history cp ps rawCommit start d
            (take i (levelFrom (commits ps) [start] d)) z
            (drop (S i) (levelFrom (commits ps) [start] d)) t); try done.
  - by rewrite take_drop_middle.
  - apply Forall_forall. intros x Hx.
    apply elem_of_take in Hx as (j & Hj & Hlt).
    specialize (Hbefore j x Hj Hlt).
    destruct (tags !! x); [|done]. destruct Hbefore. by eexists.
Qed.

Lemma findClosestTag_first_in_enqueue_order_witness :
  ∃ n : nat, ∀ fuel, n ≤ fuel → ∃ w',
    findClosestTag fuel (hostedRepo [] twoTagged) twoTaggedTags 0
      twoTaggedWorld
    = Ret ({| tag := "a-1.0"; distance := 1 |}, w').
Proof.
  apply (findClosestTag_first_in_enqueue_order (hostedRepo [] twoTagged)
           twoTaggedTags twoTaggedWorld 0 0
           {| commits := setCommits ∅ twoTagged; page := 1 |}
           (mkCommit "S" ["A"; "B"]) "S" 1 0 "A" "a-1.0").
  - reflexivity.
  - unfold cache_closed. apply (bool_decide_unpack _). vm_compute. reflexivity.
  - vm_compute. reflexivity.
  - reflexivity.
  - intros [|k] Hk; [|lia]. constructor; [|constructor].
    vm_compute. reflexivity.
  - vm_compute. reflexivity.
  - vm_compute. reflexivity.
Defined.

Lemma resolve_small_repository_witness :
  ∃ t z (n : nat),
    path (setCommits ∅ shortcut) "S" z 1
    ∧ setTags ∅ [mkTag "v1.0.0" "T"] !! z = Some t
    ∧ ∀ fuel, n ≤ fuel →
        observed (resolve fuel
                    (pagedService [mkTag "v1.0.0" "T"] (λ _, shortcut))
                    (ciEnv "S") (emptyWorld []))
        = Ret {| tag := t; distance := 1 |}.
Proof.
  apply (resolve_small_repository [mkTag "v1.0.0" "T"] (λ _, shortcut)
           (ciEnv "S") (emptyWorld []) "T" 1).
  - vm_compute. lia.
  - vm_compute. left.
  - intros c Hc. apply list_elem_of_In in Hc. simpl in Hc.
    destruct Hc as [<-|[<-|[<-|[]]]]; vm_compute;
      repeat (constructor; [set_solver|]); constructor.
  - apply path_succ. exists "T". split; [|constructor].
    vm_compute. right. left.
  - vm_compute. eexists. reflexivity.
  - intros z [|n] Hp Ht; [|lia].
    apply path_zero in Hp. subst z. vm_compute in Ht. destruct Ht as [? Ht].
    discriminate Ht.
Defined.

Lemma keeps_objects_refl w : keeps_objects w w.
Proof. split; [done|]. intros i n Hn. exists n. by repeat split. Qed.

Lemma keeps_objects_trans w1 w2 w3 :
  keeps_objects w1 w2 → keeps_objects w2 w3 → keeps_objects w1 w3.
Proof.
  intros [Hp1 H1] [Hp2 H2]. split; [congruence|].
  intros i n Hn.
  destruct (H1 i n Hn) as (n2 & Hn2 & Hs2 & Hps2 & Hcp2 & Hv2).
  destruct (H2 i n2 Hn2) as (n3 & Hn3 & Hs3 & Hps3 & Hcp3 & Hv3).
  exists n3. repeat split; try congruence. auto.
Qed.

Lemma markVisited_keeps_objects this w :
  keeps_objects w (markVisited this w).
Proof.
  split; [done|]. intros i n Hn. cbn.
  destruct (decide (this = i)) as [->|Hne].
  - exists (setVisited n true).
    rewrite (list_lookup_total_correct _ _ _ Hn).
    rewrite list_lookup_insert_eq by (by eapply lookup_lt_Some).
    by repeat split.
  - exists n. rewrite list_lookup_insert_ne by done. by repeat split.
Qed.

Lemma parents_keeps_objects fuel octokit this w refs w' :
  parents fuel octokit this w = Ret (refs, w') → keeps_objects w w'.
Proof.
  unfold parents.
  destruct (promiseAll fuel octokit (parentSha (heap w !!! this))
              (providers w !!! commitProvider (heap w !!! this)) (network w))
    as [[[cs ps] net]| |]; cbn; try done.
  intros Heq. simplify_eq. split; cbn.
  - by rewrite length_insert.
  - intros i n Hn. exists n.
    rewrite lookup_app_l by (by eapply lookup_lt_Some). by repeat split.
Qed.

Lemma loop_keeps_objects fuel octokit tags :
  ∀ todo depth w r w',
    findClosestTag_loop fuel octokit tags todo depth w = Ret (r, w') →
    keeps_objects w w'.
Proof.
  induction fuel as [|fuel IH]; intros todo depth w r w' H.
  - destruct todo; cbn in H; simplify_eq. apply keeps_objects_refl.
  - destruct todo as [|[head|] todo]; cbn [findClosestTag_loop] in H.
    + simplify_eq. apply keeps_objects_refl.
    + destruct (visited (heap w !!! head)); [by eapply IH|].
      destruct (tags !! sha (heap w !!! head)).
      { simplify_eq. apply keeps_objects_refl. }
      destruct (parents fuel octokit head (markVisited head w))
        as [[refs w2]| |] eqn:Hp; cbn in H; try done.
      eapply keeps_objects_trans; [apply markVisited_keeps_objects|].
      eapply keeps_objects_trans; [by eapply parents_keeps_objects|].
      by eapply IH.
    + by eapply IH.
Qed.

(** X14: a search that returns has only added objects and set marks: every
    object that was in the store is still there with its identifier, its
    parent identifiers and its provider, a mark that was set is still set,
    and no provider state was added or removed. *)
Theorem findClosestTag_keeps_objects fuel octokit tags history w r w' :
  findClosestTag fuel octokit tags history w = Ret (r, w') →
  keeps_objects w w' ∧ length (heap w) ≤ length (heap w').
Proof.
  intros H. apply loop_keeps_objects in H. split; [done|].
  destruct H as [_ H].
  destruct (decide (length (heap w) ≤ length (heap w'))) as [|Hlt]; [done|].
  destruct (lookup_lt_is_Some_2 (heap w) (length (heap w'))) as [n Hn];
    [lia|].
  destruct (H _ _ Hn) as (n' & Hn' & _).
  apply lookup_lt_Some in Hn'. lia.
Qed.

Lemma findClosestTag_keeps_objects_witness :
  ∃ w',
    findClosestTag 5 (hostedRepo [mkTag "v1.0.0" "T"] shortcut) shortcutTags
      0 shortcutWorld
    = Ret ({| tag := "v1.0.0"; distance := 1 |}, w')
    ∧ keeps_objects shortcutWorld w'
    ∧ length (heap shortcutWorld) ≤ length (heap w').
Proof.
  eexists. split; [vm_compute; reflexivity|].
  eapply (findClosestTag_keeps_objects 5
            (hostedRepo [mkTag "v1.0.0" "T"] shortcut) shortcutTags 0
            shortcutWorld {| tag := "v1.0.0"; distance := 1 |}).
  vm_compute. reflexivity.
Defined.

(** ** [run] as a whole *)



(** X16: with an empty tag index [run] never publishes a version: it ends
    with a failure or with nothing, or it does not end. *)
Theorem run_without_tags_never_publishes fuel octokit host env w :
  getTags fuel octokit = Ret ∅ →
  run fuel octokit host env w = None
  ∨ run fuel octokit host env w = Some []
  ∨ ∃ message, run fuel octokit host env w = Some [SetFailed message].
Proof.
  intros Htags. unfold run, resolve. rewrite Htags. cbn.
  destruct (getHistory fuel octokit (GITHUB_SHA env) w) as [[h w1]|[m|v]|];
    cbn; [|right; right; by eexists|right; by left|by left].
  destruct (findClosestTag fuel octokit ∅ h w1) as [[r w']|[m|v]|] eqn:Hf;
    [|right; right; by eexists|right; by left|by left].
  apply loop_returns_match in Hf as [_ [x Hx]]; [|right; by left].
  by rewrite lookup_empty in Hx.
Qed.

Lemma run_without_tags_never_publishes_witness :
  run 50 (hostedRepo [] twoAhead) runner (ciEnv "C2") (emptyWorld []) = None
  ∨ run 50 (hostedRepo [] twoAhead) runner (ciEnv "C2") (emptyWorld [])
    = Some []
  ∨ ∃ message,
      run 50 (hostedRepo [] twoAhead) runner (ciEnv "C2") (emptyWorld [])
      = Some [SetFailed message].
Proof.
  apply (run_without_tags_never_publishes 50 (hostedRepo [] twoAhead)
           runner (ciEnv "C2") (emptyWorld [])).
  vm_compute. reflexivity.
Defined.

(** ** Start commits and cached parents *)

(** X17: against a paging service [getHistory] returns for every start
    commit that the listing rooted at it shows, however long the history
    is: its provider is new, so the pages are read from the first one. *)
Theorem getHistory_finds_listed_start allTags history start w fuel :
  start ∈ map c_sha (history start) →
  length (history start) / pageSize < fuel →
  ∃ rawCommit ps,
    c_sha rawCommit = start
    ∧ getHistory fuel (pagedService allTags history) start w
      = Ret (length (heap w),
             {| heap := heap w ++ [newLazyGitCommit rawCommit
                                     (length (providers w))];
                providers := providers w ++ [ps];
                network := network w |}).
Proof.
  intros Hin Hfuel.
  destruct (provider_first_call allTags history start fuel Hin Hfuel)
    as (c & ps & Hp & Hsha).
  exists c, ps. split; [done|]. unfold getHistory. by rewrite Hp.
Qed.

Lemma getHistory_finds_listed_start_witness :
  ∃ rawCommit ps,
    c_sha rawCommit = "C2"
    ∧ getHistory 1 (pagedService [] (λ _, twoAhead)) "C2" (emptyWorld [])
      = Ret (0, {| heap := [newLazyGitCommit rawCommit 0];
                   providers := [ps];
                   network := [] |}).
Proof.
  apply (getHistory_finds_listed_start [] (λ _, twoAhead) "C2"
           (emptyWorld []) 1).
  - vm_compute. left.
  - vm_compute. lia.
Defined.



(** X19: expanding an object whose parents are all in the cache of its
    provider makes no request: for every service and any fuel [parents()]
    returns one new object per parent and leaves the provider states and
    the network as they were. *)
Theorem parents_of_cached_make_no_request fuel octokit this w :
  commitProvider (heap w !!! this) < length (providers w) →
  Forall (λ h, is_Some (commits (providers w
                                   !!! commitProvider (heap w !!! this))
                        !! h))
         (parentSha (heap w !!! this)) →
  ∃ refs w',
    parents fuel octokit this w = Ret (refs, w')
    ∧ length refs = length (parentSha (heap w !!! this))
    ∧ providers w' = providers w
    ∧ network w' = network w.
Proof.
  intros Hcp Hcached. unfold parents.
  set (cp := commitProvider (heap w !!! this)) in *.
  assert (∃ cs, Forall2 (λ h c, commits (providers w !!! cp) !! h = Some c)
                        (parentSha (heap w !!! this)) cs) as [cs Hcs].
  { induction Hcached as [|h l [c Hc] _ [cs IH]].
    - exists []. constructor.
    - exists (c :: cs). by constructor. }
  rewrite (promiseAll_cached _ _ _ _ _ cs Hcs). cbn.
  eexists _, _. split; [reflexivity|]. cbn.
  rewrite length_seq. split; [by rewrite (Forall2_length _ _ _ Hcs)|].
  split; [|done].
  apply list_insert_id. apply list_lookup_lookup_total_lt. exact Hcp.
Qed.

Lemma parents_of_cached_make_no_request_witness :
  ∃ refs w',
    parents 0 rejectingTags 0 shortcutWorld = Ret (refs, w')
    ∧ length refs = 2
    ∧ providers w' = providers shortcutWorld
    ∧ network w' = network shortcutWorld.
Proof.
  apply (parents_of_cached_make_no_request 0 rejectingTags 0 shortcutWorld).
  - vm_compute. lia.
  - apply (bool_decide_unpack _). vm_compute. reflexivity.
Defined.
